(** * work_managers/zeromq.py: the ZeroMQ work manager

    A shallow embedding of the coordinator ([ZMQWMServer]) and of the worker
    process ([ZMQWMProcess]) of [work_managers/zeromq.py], and the properties
    of the message protocol they implement.

    Pickled Python objects travelling on the sockets are values of [pyobj];
    Python dictionaries are [gmap]s; a socket is the list of the messages that
    were sent on it, oldest first.  One pass through a [while True] loop is a
    function from the state and what the blocking call of that pass returned
    to a [status] and the next state. *)

From stdpp Require Import base gmap list strings countable relations.
From Stdlib Require Import ZArith NArith QArith HexString Lia.
#[local] Close Scope Q_scope.

(** ** Python values *)

Module Py.

(** The objects that are pickled into messages: [None], integers, strings,
    UUIDs, references to callables (by qualified name), exception instances
    (which Python compares by identity, hence [oid]), dictionaries from
    strings to integers, and tuples of these.  On these values Python's [==]
    is equality. *)
#[warnings="-register-all"] Inductive pyobj : Type :=
  | PyNone
  | PyInt (z : Z)
  | PyStr (s : string)
  | PyUUID (u : N)
  | PyFunc (name : string)
  | PyExc (oid : N) (cls msg : string)
  | PyDict (d : gmap string Z)
  | PyTuple (items : list pyobj).

Section nested_induction.
Variable P : pyobj → Prop.
Hypothesis HNone : P PyNone.
Hypothesis HInt : ∀ z, P (PyInt z).
Hypothesis HStr : ∀ s, P (PyStr s).
Hypothesis HUUID : ∀ u, P (PyUUID u).
Hypothesis HFunc : ∀ f, P (PyFunc f).
Hypothesis HExc : ∀ i c m, P (PyExc i c m).
Hypothesis HDict : ∀ d, P (PyDict d).
Hypothesis HTuple : ∀ items, Forall P items → P (PyTuple items).

Fixpoint pyobj_nested_ind (o : pyobj) : P o :=
  match o with
  | PyNone => HNone
  | PyInt z => HInt z
  | PyStr s => HStr s
  | PyUUID u => HUUID u
  | PyFunc f => HFunc f
  | PyExc i c m => HExc i c m
  | PyDict d => HDict d
  | PyTuple items =>
      HTuple items
        ((fix all (l : list pyobj) : Forall P l :=
            match l with
            | [] => Forall_nil_2 P
            | x :: l' => Forall_cons_2 P x l' (pyobj_nested_ind x) (all l')
            end) items)
  end.
End nested_induction.

(** [pyobj] is countable, so that it can be the key type of a dictionary. *)
Definition leaf : Type := N + Z + string + gmap string Z.

Fixpoint pyobj_encode (o : pyobj) : gen_tree leaf :=
  match o with
  | PyNone => GenNode 0 []
  | PyInt z => GenNode 1 [GenLeaf (inl (inl (inr z)))]
  | PyStr s => GenNode 2 [GenLeaf (inl (inr s))]
  | PyUUID u => GenNode 3 [GenLeaf (inl (inl (inl u)))]
  | PyFunc f => GenNode 4 [GenLeaf (inl (inr f))]
  | PyExc i c m =>
      GenNode 5 [GenLeaf (inl (inl (inl i))); GenLeaf (inl (inr c));
                 GenLeaf (inl (inr m))]
  | PyDict d => GenNode 6 [GenLeaf (inr d)]
  | PyTuple items => GenNode 7 (pyobj_encode <$> items)
  end.

Fixpoint pyobj_decode (t : gen_tree leaf) : pyobj :=
  match t with
  | GenNode 1 [GenLeaf (inl (inl (inr z)))] => PyInt z
  | GenNode 2 [GenLeaf (inl (inr s))] => PyStr s
  | GenNode 3 [GenLeaf (inl (inl (inl u)))] => PyUUID u
  | GenNode 4 [GenLeaf (inl (inr f))] => PyFunc f
  | GenNode 5 [GenLeaf (inl (inl (inl i))); GenLeaf (inl (inr c));
               GenLeaf (inl (inr m))] => PyExc i c m
  | GenNode 6 [GenLeaf (inr d)] => PyDict d
  | GenNode 7 ts => PyTuple (pyobj_decode <$> ts)
  | _ => PyNone
  end.

Lemma pyobj_decode_encode o : pyobj_decode (pyobj_encode o) = o.
Proof.
  induction o as [| | | | | | |items IH] using pyobj_nested_ind; simpl;
    try done.
  f_equal. induction IH as [|x l Hx _ IHl]; csimpl; [done|].
  by rewrite Hx, IHl.
Qed.

#[global] Instance pyobj_eq_dec : EqDecision pyobj.
Proof.
  intros a b. destruct (decide (pyobj_encode a = pyobj_encode b)) as [E|NE].
  - left. rewrite <- (pyobj_decode_encode a), <- (pyobj_decode_encode b).
    by rewrite E.
  - right. congruence.
Defined.

#[global] Instance pyobj_countable : Countable pyobj :=
  inj_countable' pyobj_encode pyobj_decode pyobj_decode_encode.

(** [hash(o)] succeeds: dictionaries, and tuples that hold one, are not
    hashable. *)
Fixpoint hashable (o : pyobj) : bool :=
  match o with
  | PyDict _ => false
  | PyTuple items => forallb hashable items
  | _ => true
  end.

(** The exceptions that the loops of this file can meet. [Uncaught e] is an
    exception [e] raised by a task function that is not an [Exception]
    ([SystemExit], [KeyboardInterrupt], ...). *)
Inductive py_exn : Type :=
  | TypeError
  | ValueError
  | Uncaught (e : pyobj).

#[global] Instance py_exn_eq_dec : EqDecision py_exn.
Proof. solve_decision. Defined.

(** What one pass of a [while True] loop leaves behind: the loop goes on to
    its next pass, the function returned, or an exception left the loop. *)
Inductive status : Type :=
  | Running
  | Returned
  | Raised (e : py_exn).

#[global] Instance status_eq_dec : EqDecision status.
Proof. solve_decision. Defined.

(** [try: ... finally: cleanup]: the clean-up runs when the loop is left. *)
Definition finally {A} (cleanup : A → A) (r : status * A) : status * A :=
  match r.1 with
  | Running => r
  | st => (st, cleanup r.2)
  end.

(** Iterating over a string yields its characters as one-character strings. *)
Fixpoint chars (s : string) : list pyobj :=
  match s with
  | EmptyString => []
  | String c s' => PyStr (String c EmptyString) :: chars s'
  end.

(** The elements of a sequence (a tuple or a string), [None] for the other
    objects. *)
Definition py_seq (o : pyobj) : option (list pyobj) :=
  match o with
  | PyTuple items => Some items
  | PyStr s => Some (chars s)
  | _ => None
  end.

(** [iter(o)]: the elements of an iterable, [None] where Python raises
    [TypeError] because [o] is not iterable.  A dictionary yields its keys,
    in an order of its own. *)
Definition py_iter (o : pyobj) : option (list pyobj) :=
  match o with
  | PyDict d => Some (PyStr <$> (map_to_list d).*1)
  | _ => py_seq o
  end.

(** [o[:n]], [None] where Python raises [TypeError] because [o] cannot be
    sliced. *)
Definition py_slice_to (n : nat) (o : pyobj) : option pyobj :=
  match o with
  | PyTuple items => Some (PyTuple (take n items))
  | PyStr s => Some (PyStr (String.substring 0 n s))
  | _ => None
  end.

(** [(a, b, c, d) = o] *)
Definition unpack4 (o : pyobj) : py_exn + (pyobj * pyobj * pyobj * pyobj) :=
  match py_iter o with
  | None => inl TypeError
  | Some [a; b; c; d] => inr (a, b, c, d)
  | Some _ => inl ValueError
  end.

(** [a, b, c, d, e = o] *)
Definition unpack5 (o : pyobj)
  : py_exn + (pyobj * pyobj * pyobj * pyobj * pyobj) :=
  match py_iter o with
  | None => inl TypeError
  | Some [a; b; c; d; e] => inr (a, b, c, d, e)
  | Some _ => inl ValueError
  end.

(** [d.pop(key)]: the value under [key] and the dictionary without it;
    [KeyError] when there is none, [TypeError] when [key] cannot be hashed. *)
Inductive popped (V : Type) : Type :=
  | Popped (v : V) (d : gmap pyobj V)
  | PopKeyError
  | PopTypeError.
Arguments Popped {V} v d.
Arguments PopKeyError {V}.
Arguments PopTypeError {V}.

Definition dict_pop {V} (key : pyobj) (d : gmap pyobj V) : popped V :=
  match d !! key with
  | Some v => Popped v (delete key d)
  | None => if hashable key then PopKeyError else PopTypeError
  end.

Lemma chars_substring n s : chars (String.substring 0 n s) = take n (chars s).
Proof.
  revert n. induction s as [|c s IH]; intros [|n]; simpl; try done.
  by rewrite IH.
Qed.

Lemma py_seq_slice_to n o xs :
  py_seq o = Some xs →
  ∃ o', py_slice_to n o = Some o' ∧ py_iter o' = Some (take n xs).
Proof.
  destruct o; simpl; intros H; try discriminate; simplify_eq.
  - eexists; split; [done|]. simpl. by rewrite chars_substring.
  - eexists; split; done.
Qed.

Lemma unpack4_ValueError o xs :
  py_iter o = Some xs → length xs ≠ 4 → unpack4 o = inl ValueError.
Proof.
  unfold unpack4. intros -> Hlen.
  destruct xs as [|a [|b [|c [|d [|e xs]]]]]; simpl in *; try done; lia.
Qed.

Lemma unpack5_ValueError o xs :
  py_iter o = Some xs → length xs ≠ 5 → unpack5 o = inl ValueError.
Proof.
  unfold unpack5. intros -> Hlen.
  destruct xs as [|a [|b [|c [|d [|e [|f xs]]]]]]; simpl in *; try done; lia.
Qed.

End Py.
Export Py.

(** ** Futures *)

Module Future.

(** Modelled from the spec: [WMFuture], of the package's [__init__.py], is
    not part of this file.  The spec describes it as a placeholder with a
    unique identifier that is pending until it is fulfilled with a value or
    failed with an error value and its trace text. *)
Inductive future_state : Type :=
  | Pending
  | Fulfilled (value : pyobj)
  | Failed (error trace : pyobj).

#[global] Instance future_state_eq_dec : EqDecision future_state.
Proof. solve_decision. Defined.

Record WMFuture : Type := mkFuture {
  task_id : pyobj;
  fstate : future_state;
}.

#[global] Instance WMFuture_eq_dec : EqDecision WMFuture.
Proof. solve_decision. Defined.

(** Modelled from the spec: [WMFuture()], with the identifier that the
    constructor draws given as [tid]. *)
Definition new_future (tid : pyobj) : WMFuture :=
  {| task_id := tid; fstate := Pending |}.

(** Modelled from the spec: [ft._set_result(payload)]. *)
Definition _set_result (payload : pyobj) (ft : WMFuture) : WMFuture :=
  {| task_id := task_id ft; fstate := Fulfilled payload |}.

(** Modelled from the spec: [ft._set_exception(error_value, traceback_text)]. *)
Definition _set_exception (e tb : pyobj) (ft : WMFuture) : WMFuture :=
  {| task_id := task_id ft; fstate := Failed e tb |}.

Definition resolved (ft : WMFuture) : bool :=
  match fstate ft with
  | Pending => false
  | _ => true
  end.

End Future.
Export Future.

(** ** The coordinator: [ZMQWMServer] *)

Module Server.

(** The attributes of a [ZMQWMServer] object. *)
Record ZMQWMServer : Type := mkServer {
  instance_id : pyobj;
  server_heartbeat_interval : Q;
  master_task_endpoint : string;
  master_result_endpoint : string;
  master_announce_endpoint : string;
  task_queue : list pyobj;
  pending_futures : gmap pyobj nat;
  _shutdown_signaled : bool;
  _startup_ctl_endpoint : string;
  _dispatch_thread_ctl_endpoint : string;
  _receive_thread_ctl_endpoint : string;
  _announce_endpoint : string;
}.

(** The process around the object: the future objects it has created (a
    dictionary entry and the caller's handle refer to the same future, so the
    registry holds references into [heap]), the messages sent to each
    [inproc://] endpoint, what was sent on the task and announcement sockets,
    the sockets that are open, and what went to [log.error]. *)
Record world : Type := mkWorld {
  self : ZMQWMServer;
  heap : list WMFuture;
  inproc : gmap string (list string);
  task_sent : list pyobj;
  announced : list string;
  open_sockets : gset string;
  log_error : list string;
}.

Definition set_task_queue (q : list pyobj) (s : ZMQWMServer) : ZMQWMServer :=
  mkServer (instance_id s) (server_heartbeat_interval s)
    (master_task_endpoint s) (master_result_endpoint s)
    (master_announce_endpoint s) q (pending_futures s) (_shutdown_signaled s)
    (_startup_ctl_endpoint s) (_dispatch_thread_ctl_endpoint s)
    (_receive_thread_ctl_endpoint s) (_announce_endpoint s).

Definition set_pending_futures (m : gmap pyobj nat) (s : ZMQWMServer)
  : ZMQWMServer :=
  mkServer (instance_id s) (server_heartbeat_interval s)
    (master_task_endpoint s) (master_result_endpoint s)
    (master_announce_endpoint s) (task_queue s) m (_shutdown_signaled s)
    (_startup_ctl_endpoint s) (_dispatch_thread_ctl_endpoint s)
    (_receive_thread_ctl_endpoint s) (_announce_endpoint s).

Definition set_shutdown_signaled (b : bool) (s : ZMQWMServer) : ZMQWMServer :=
  mkServer (instance_id s) (server_heartbeat_interval s)
    (master_task_endpoint s) (master_result_endpoint s)
    (master_announce_endpoint s) (task_queue s) (pending_futures s) b
    (_startup_ctl_endpoint s) (_dispatch_thread_ctl_endpoint s)
    (_receive_thread_ctl_endpoint s) (_announce_endpoint s).

Definition with_self (f : ZMQWMServer → ZMQWMServer) (w : world) : world :=
  mkWorld (f (self w)) (heap w) (inproc w) (task_sent w) (announced w)
    (open_sockets w) (log_error w).

Definition with_heap (f : list WMFuture → list WMFuture) (w : world) : world :=
  mkWorld (self w) (f (heap w)) (inproc w) (task_sent w) (announced w)
    (open_sockets w) (log_error w).

Definition with_inproc (f : gmap string (list string) → gmap string (list string))
    (w : world) : world :=
  mkWorld (self w) (heap w) (f (inproc w)) (task_sent w) (announced w)
    (open_sockets w) (log_error w).

Definition with_task_sent (f : list pyobj → list pyobj) (w : world) : world :=
  mkWorld (self w) (heap w) (inproc w) (f (task_sent w)) (announced w)
    (open_sockets w) (log_error w).

Definition with_announced (f : list string → list string) (w : world) : world :=
  mkWorld (self w) (heap w) (inproc w) (task_sent w) (f (announced w))
    (open_sockets w) (log_error w).

Definition with_open_sockets (f : gset string → gset string) (w : world)
  : world :=
  mkWorld (self w) (heap w) (inproc w) (task_sent w) (announced w)
    (f (open_sockets w)) (log_error w).

(** [log.error(msg)]; the message is kept without its formatted arguments. *)
Definition error (msg : string) (w : world) : world :=
  mkWorld (self w) (heap w) (inproc w) (task_sent w) (announced w)
    (open_sockets w) (log_error w ++ [msg]).

(** ['{:x}'.format(n)] *)
Definition format_x (n : N) : string :=
  match n with
  | N0 => "0"
  | Npos p => HexString.Raw.of_pos p ""
  end.

(** [ZMQWMServer.__init__]; [id_self] is [id(self)] and [uuid4] the value
    that [uuid.uuid4()] returns in [ZMQBase.__init__]. *)
Definition __init__ (id_self uuid4 : N)
    (master_task_endpoint master_result_endpoint master_announce_endpoint
       : string) : ZMQWMServer :=
  {| instance_id := PyUUID uuid4;
     server_heartbeat_interval := 10%Q;
     master_task_endpoint := master_task_endpoint;
     master_result_endpoint := master_result_endpoint;
     master_announce_endpoint := master_announce_endpoint;
     task_queue := [];
     pending_futures := ∅;
     _shutdown_signaled := false;
     _startup_ctl_endpoint := "inproc://_startup_ctl_" +:+ format_x id_self;
     _dispatch_thread_ctl_endpoint :=
       "inproc://_dispatch_thread_ctl_" +:+ format_x id_self;
     _receive_thread_ctl_endpoint :=
       "inproc://_receive_thread_ctl_" +:+ format_x id_self;
     _announce_endpoint := "inproc://_announce_" +:+ format_x id_self |}.

(** The process right after the object was constructed. *)
Definition fresh_world (s : ZMQWMServer) : world :=
  {| self := s; heap := []; inproc := ∅; task_sent := []; announced := [];
     open_sockets := ∅; log_error := [] |}.

(** The messages sent to an endpoint so far, oldest first. *)
Definition sent_to (endpoint : string) (w : world) : list string :=
  default [] (inproc w !! endpoint).

(** [ZMQBase._signal_thread]: a socket is connected to [endpoint], [message]
    is sent on it and the socket is closed. *)
Definition _signal_thread (endpoint : string) (message : string) (w : world)
  : world :=
  with_inproc (λ net, <[endpoint := default [] (net !! endpoint) ++ [message]]> net) w.

(** [socket.close()] on the sockets named [names]. *)
Definition close_sockets (names : list string) (w : world) : world :=
  with_open_sockets (λ o, o ∖ list_to_set names) w.

(** The prologue of a duty loop: its public socket and its control socket
    are created and bound, and the start-up rendezvous is signalled.  The
    interleaving of the three prologues with [startup()] is the subject of
    [Startup] below. *)
Definition loop_prologue (sockets : list string) (w : world) : world :=
  _signal_thread (_startup_ctl_endpoint (self w)) ""
    (with_open_sockets (λ o, o ∪ list_to_set sockets) w).

(** ['shutdown' in messages], for the messages of [recvall(ctlsocket)] when
    the poll reported the control socket readable. *)
Definition shutdown_requested (ctl : option (list string)) : bool :=
  match ctl with
  | Some messages => bool_decide ("shutdown" ∈ messages)
  | None => false
  end.

(** *** Submission *)

(** [_make_append_task]; [tid] is the identifier of the future that
    [WMFuture()] creates.  Returns the reference to the new future. *)
Definition _make_append_task (tid fn args kwargs : pyobj) (w : world)
  : nat * world :=
  let ft := length (heap w) in
  let task_tuple := PyTuple [instance_id (self w); tid; fn; args; kwargs] in
  let w := with_heap (λ h, h ++ [new_future tid]) w in
  let w := with_self (λ s, set_pending_futures (<[tid := ft]> (pending_futures s)) s) w in
  let w := with_self (λ s, set_task_queue (task_queue s ++ [task_tuple]) s) w in
  (ft, w).

(** [submit]: the task is queued and the dispatch loop is woken up. *)
Definition submit (tid fn args kwargs : pyobj) (w : world) : nat * world :=
  let '(ft, w) := _make_append_task tid fn args kwargs w in
  (ft, _signal_thread (_dispatch_thread_ctl_endpoint (self w)) "" w).

(** [submit_many]; each task comes with the identifier of its future. *)
Fixpoint make_append_tasks (tasks : list (pyobj * (pyobj * pyobj * pyobj)))
    (w : world) : list nat * world :=
  match tasks with
  | [] => ([], w)
  | (tid, (fn, args, kwargs)) :: tasks' =>
      let '(ft, w) := _make_append_task tid fn args kwargs w in
      let '(fts, w) := make_append_tasks tasks' w in
      (ft :: fts, w)
  end.

Definition submit_many (tasks : list (pyobj * (pyobj * pyobj * pyobj)))
    (w : world) : list nat * world :=
  let '(futures, w) := make_append_tasks tasks w in
  (futures, _signal_thread (_dispatch_thread_ctl_endpoint (self w)) "" w).

(** The registry refers to futures that exist, each under one task id. *)
Definition registry_ok (w : world) : Prop :=
  ∀ k ft, pending_futures (self w) !! k = Some ft →
    ft < length (heap w) ∧
    ∀ k', pending_futures (self w) !! k' = Some ft → k' = k.

(** *** Shutdown *)

(** The three control endpoints, in the order in which [shutdown] signals
    them. *)
Definition control_endpoints (s : ZMQWMServer) : list string :=
  [_dispatch_thread_ctl_endpoint s; _receive_thread_ctl_endpoint s;
   _announce_endpoint s].

Definition shutdown (w : world) : world :=
  if negb (_shutdown_signaled (self w)) then
    let w := with_self (set_shutdown_signaled true) w in
    foldl (λ w endpoint, _signal_thread endpoint "shutdown" w) w
      (control_endpoints (self w))
  else w.

(** *** The dispatch loop *)


(** The inner [while True] of [_dispatch_loop], run with [q] the queue it
    finds: tasks are popped and sent until [popleft] raises [IndexError]. *)
Fixpoint drain (q : list pyobj) (sent : list pyobj) : list pyobj * list pyobj :=
  match q with
  | [] => ([], sent)
  | task_tuple :: q' => drain q' (sent ++ [task_tuple])
  end.

Definition drain_queue (w : world) : world :=
  let '(q, sent) := drain (task_queue (self w)) (task_sent w) in
  with_task_sent (λ _, sent) (with_self (set_task_queue q) w).

Definition dispatch_sockets : list string :=
  ["master_task_socket"; "_dispatch_loop.ctlsocket"].

(** One pass of the outer loop of [_dispatch_loop]; [ctl] is what
    [recvall(ctlsocket)] returned if the poll found the control socket
    readable within its 100 ms. *)
Definition _dispatch_loop_pass (ctl : option (list string)) (w : world)
  : status * world :=
  finally (close_sockets dispatch_sockets)
    (if shutdown_requested ctl then (Returned, w)
     else (Running, drain_queue w)).






(** The loop of [_dispatch_loop], over what its polls report one after the
    other; [Running] at the end means that the loop is in its next poll. *)
Fixpoint dispatch_passes (polls : list (option (list string))) (w : world)
  : status * world :=
  match polls with
  | [] => (Running, w)
  | ctl :: polls' =>
      match _dispatch_loop_pass ctl w with
      | (Running, w') => dispatch_passes polls' w'
      | r => r
      end
  end.

Definition _dispatch_loop (polls : list (option (list string))) (w : world)
  : status * world :=
  dispatch_passes polls (loop_prologue dispatch_sockets w).

(** *** The receive loop *)

(** [ft._set_exception( *payload)]: [payload] is unpacked into the arguments
    of the call; [None] where that raises [TypeError]. *)
Definition set_exception_star (payload : pyobj) (ft : nat) (w : world)
  : option world :=
  match py_iter payload with
  | Some [e; tb] => Some (with_heap (alter (_set_exception e tb) ft) w)
  | _ => None
  end.

(** The body of [if poll_results.get(master_result_socket) == zmq.POLLIN],
    for the object [msg] that [recv_pyobj()] returns. *)
Definition receive_result (msg : pyobj) (w : world) : status * world :=
  match unpack4 msg with
  | inl ValueError => (Running, error "received malformed result; ignorning" w)
  | inl e => (Raised e, w)
  | inr (instance_id', task_id, result_type, payload) =>
      let w :=
        if decide (instance_id' ≠ instance_id (self w)) then
          error "received result for instance {!s} but this is instance {!s}; ignoring. Zombie client?" w
        else w in
      match dict_pop task_id (pending_futures (self w)) with
      | PopTypeError => (Raised TypeError, w)
      | PopKeyError =>
          (Running,
           error "received result for nonexistent task {!s}; zombie client?" w)
      | Popped ft rest =>
          let w := with_self (set_pending_futures rest) w in
          if decide (result_type = PyStr "result") then
            (Running, with_heap (alter (_set_result payload) ft) w)
          else if decide (result_type = PyStr "exception") then
            match set_exception_star payload ft w with
            | Some w => (Running, w)
            | None => (Raised TypeError, w)
            end
          else
            (Running,
             error "received unknown result type {!r} for task {!s}; ignoring. Incompatible/zombie client?" w)
      end
  end.

Definition receive_sockets : list string :=
  ["master_result_socket"; "_receive_loop.ctlsocket"].

(** One pass of the loop of [_receive_loop]; the poll has no timeout, and
    reports the control socket readable ([ctl]), the result socket readable
    ([result], the object then received), or both. *)
Definition _receive_loop_pass (ctl : option (list string))
    (result : option pyobj) (w : world) : status * world :=
  finally (close_sockets receive_sockets)
    (if shutdown_requested ctl then (Returned, w)
     else match result with
          | Some msg => receive_result msg w
          | None => (Running, w)
          end).

(** The loop of [_receive_loop], over what its polls report one after the
    other; [Running] at the end means that the loop is blocked in its next
    poll. *)
Fixpoint receive_passes (polls : list (option (list string) * option pyobj))
    (w : world) : status * world :=
  match polls with
  | [] => (Running, w)
  | (ctl, result) :: polls' =>
      match _receive_loop_pass ctl result w with
      | (Running, w') => receive_passes polls' w'
      | r => r
      end
  end.

Definition _receive_loop (polls : list (option (list string) * option pyobj))
    (w : world) : status * world :=
  receive_passes polls (loop_prologue receive_sockets w).

(** *** The announce loop *)

(** The local variables of [_announce_loop]. *)
Record announcer : Type := mkAnnouncer {
  last_announce : Q;
  remaining_interval : Q;
}.

(** What a poll of the announce loop returns: the control socket is readable
    and [recvall] gives [messages], or the timeout has expired.  [now] is the
    value of [time.time()] after the branch; [t] the one read in the timeout
    branch.  Clock values are exact rationals, in seconds. *)
Inductive announce_poll : Type :=
  | Woken (messages : list string) (now : Q)
  | TimedOut (t now : Q).

(** The local variables on entry to the loop. *)
Definition announcer_start (s : ZMQWMServer) : announcer :=
  {| last_announce := 0; remaining_interval := server_heartbeat_interval s |}.

(** The timeout handed to [poller.poll], in milliseconds. *)
Definition poll_timeout (a : announcer) : Q := (remaining_interval a * 1000)%Q.

(** The four lines after the [if]/[else] of a pass: the next value of
    [remaining_interval]. *)
Definition next_interval (H last_announce now : Q) : Q :=
  if Qlt_le_dec (now - last_announce) H then (now - last_announce)%Q else H.

Definition announce_sockets : list string :=
  ["master_announce_socket"; "_announce_loop.ctlsocket"].

(** One pass of the loop of [_announce_loop]. *)
Definition _announce_loop_pass (ev : announce_poll) (st : world * announcer)
  : status * (world * announcer) :=
  let '(w, a) := st in
  let H := server_heartbeat_interval (self w) in
  finally (λ st, (close_sockets announce_sockets st.1, st.2))
    match ev with
    | Woken messages now =>
        if bool_decide ("shutdown" ∈ messages) then
          (Returned, (with_announced (λ l, l ++ ["shutdown"]) w, a))
        else
          (Running,
           (with_announced (λ l, l ++ messages) w,
            {| last_announce := last_announce a;
               remaining_interval := next_interval H (last_announce a) now |}))
    | TimedOut t now =>
        (Running,
         (with_announced (λ l, l ++ ["ping"]) w,
          {| last_announce := t;
             remaining_interval := next_interval H t now |}))
    end.

(** The loop of [_announce_loop], over what its polls report one after the
    other. *)
Fixpoint announce_passes (evs : list announce_poll) (st : world * announcer)
  : status * (world * announcer) :=
  match evs with
  | [] => (Running, st)
  | ev :: evs' =>
      match _announce_loop_pass ev st with
      | (Running, st') => announce_passes evs' st'
      | r => r
      end
  end.

Definition _announce_loop (evs : list announce_poll) (w : world)
  : status * (world * announcer) :=
  let w := loop_prologue announce_sockets w in
  announce_passes evs (w, announcer_start (self w)).

(** *** Examples *)

(** A coordinator on the default ports, with instance identity UUID 1. *)
Definition example_server : ZMQWMServer :=
  __init__ 0 1 "tcp://*:23812" "tcp://*:23813" "tcp://*:23811".

(** The process after [submit(add, 2, 3)]; the future has task id UUID 100. *)
Definition one_pending : world :=
  (submit (PyUUID 100) (PyFunc "add") (PyTuple [PyInt 2; PyInt 3]) (PyDict ∅)
     (fresh_world example_server)).2.

End Server.
Export Server.

(** ** The start-up rendezvous of the coordinator *)

Module Startup.

(** [startup()] runs in the caller's thread and starts three threads, one
    per duty loop.  The four threads interleave; each step below is one
    statement of [startup] or of the prologue of a loop, or the transport
    handing over a message that was sent. *)
Inductive loop : Type := Dispatch | Receive | Announce.

#[global] Instance loop_eq_dec : EqDecision loop.
Proof. solve_decision. Defined.

(** The endpoints bound during start-up: the rendezvous
    ([_startup_ctl_endpoint]), and for each loop the endpoint of its public
    socket and the one of its control socket. *)
Inductive endpoint : Type :=
  | StartupCtl
  | Public (l : loop)
  | Control (l : loop).

#[global] Instance endpoint_eq_dec : EqDecision endpoint.
Proof. solve_decision. Defined.

(** Where [startup()] stands: the statement it executes next. *)
Inductive main_pc : Type :=
  | MBind            (* ctlsocket.bind(self._startup_ctl_endpoint) *)
  | MStartDispatch   (* self._dispatch_thread.start() *)
  | MStartReceive    (* self._receive_thread.start() *)
  | MStartAnnounce   (* self._announce_thread.start() *)
  | MRecv1           (* ctlsocket.recv() # dispatch *)
  | MRecv2           (* ctlsocket.recv() # receive *)
  | MRecv3           (* ctlsocket.recv() # announce *)
  | MClose           (* ctlsocket.close() *)
  | MReturned.

#[global] Instance main_pc_eq_dec : EqDecision main_pc.
Proof. solve_decision. Defined.

(** Where a loop thread stands. *)
Inductive loop_pc : Type :=
  | NotStarted
  | BindPublic   (* <public socket>.bind(...) *)
  | BindControl  (* ctlsocket.bind(...) *)
  | Signal       (* self._signal_thread(self._startup_ctl_endpoint, ...) *)
  | Polling      (* in its [while True] *)
  | Crashed.     (* an exception left the thread function *)

#[global] Instance loop_pc_eq_dec : EqDecision loop_pc.
Proof. solve_decision. Defined.

Record state : Type := mkState {
  main : main_pc;
  dispatch_pc : loop_pc;
  receive_pc : loop_pc;
  announce_pc : loop_pc;
  bound : list endpoint;      (* the endpoints with a socket bound to them *)
  in_flight : list loop;      (* acknowledgments sent and not yet delivered,
                                 each tagged with the loop that sent it *)
  rendezvous : list loop;     (* acknowledgments waiting at the rendezvous
                                 socket, oldest first *)
  received : list loop;       (* acknowledgments that [startup] received *)
}.

Definition init : state :=
  {| main := MBind; dispatch_pc := NotStarted; receive_pc := NotStarted;
     announce_pc := NotStarted; bound := []; in_flight := [];
     rendezvous := []; received := [] |}.

Definition pc_of (l : loop) (s : state) : loop_pc :=
  match l with
  | Dispatch => dispatch_pc s
  | Receive => receive_pc s
  | Announce => announce_pc s
  end.

Definition set_pc (l : loop) (p : loop_pc) (s : state) : state :=
  match l with
  | Dispatch =>
      mkState (main s) p (receive_pc s) (announce_pc s) (bound s)
        (in_flight s) (rendezvous s) (received s)
  | Receive =>
      mkState (main s) (dispatch_pc s) p (announce_pc s) (bound s)
        (in_flight s) (rendezvous s) (received s)
  | Announce =>
      mkState (main s) (dispatch_pc s) (receive_pc s) p (bound s)
        (in_flight s) (rendezvous s) (received s)
  end.

Definition set_main (m : main_pc) (s : state) : state :=
  mkState m (dispatch_pc s) (receive_pc s) (announce_pc s) (bound s)
    (in_flight s) (rendezvous s) (received s).

Definition set_bound (b : list endpoint) (s : state) : state :=
  mkState (main s) (dispatch_pc s) (receive_pc s) (announce_pc s) b
    (in_flight s) (rendezvous s) (received s).

Definition set_in_flight (f : list loop) (s : state) : state :=
  mkState (main s) (dispatch_pc s) (receive_pc s) (announce_pc s) (bound s)
    f (rendezvous s) (received s).

Definition set_rendezvous (q : list loop) (s : state) : state :=
  mkState (main s) (dispatch_pc s) (receive_pc s) (announce_pc s) (bound s)
    (in_flight s)
    q (received s).

Definition set_received (r : list loop) (s : state) : state :=
  mkState (main s) (dispatch_pc s) (receive_pc s) (announce_pc s) (bound s)
    (in_flight s) (rendezvous s) r.

(** [Thread(target=...).start()] *)
Definition start_thread (l : loop) (next : main_pc) (s : state) : option state :=
  Some (set_main next (set_pc l BindPublic s)).

(** [ctlsocket.recv()]: blocks while no acknowledgment is waiting. *)
Definition recv_ack (next : main_pc) (s : state) : option state :=
  match rendezvous s with
  | [] => None
  | l :: q =>
      Some (set_main next
              (set_received (received s ++ [l]) (set_rendezvous q s)))
  end.

(** The next statement of [startup()]; [None] when it cannot move. *)
Definition step_main (s : state) : option state :=
  match main s with
  | MBind => Some (set_main MStartDispatch (set_bound (StartupCtl :: bound s) s))
  | MStartDispatch => start_thread Dispatch MStartReceive s
  | MStartReceive => start_thread Receive MStartAnnounce s
  | MStartAnnounce => start_thread Announce MRecv1 s
  | MRecv1 => recv_ack MRecv2 s
  | MRecv2 => recv_ack MRecv3 s
  | MRecv3 => recv_ack MClose s
  | MClose =>
      Some (set_main MReturned
              (set_bound (filter (λ e, e ≠ StartupCtl) (bound s)) s))
  | MReturned => None
  end.

(** The next statement of the prologue of loop [l].  The acknowledgment is
    sent by connecting to the rendezvous endpoint, which has to be bound. *)
Definition step_loop (l : loop) (s : state) : option state :=
  match pc_of l s with
  | BindPublic => Some (set_pc l BindControl (set_bound (Public l :: bound s) s))
  | BindControl => Some (set_pc l Signal (set_bound (Control l :: bound s) s))
  | Signal =>
      if decide (StartupCtl ∈ bound s) then
        Some (set_pc l Polling (set_in_flight (in_flight s ++ [l]) s))
      else Some (set_pc l Crashed s)
  | NotStarted | Polling | Crashed => None
  end.

(** A [bind] may fail (the address is in use): the exception ends the
    thread before it acknowledges. *)
Definition bind_fails (l : loop) (s : state) : option state :=
  match pc_of l s with
  | BindPublic | BindControl => Some (set_pc l Crashed s)
  | _ => None
  end.

(** [acks] without the first acknowledgment of loop [l]. *)
Fixpoint remove_one (l : loop) (acks : list loop) : list loop :=
  match acks with
  | [] => []
  | l' :: acks' => if decide (l = l') then acks' else l' :: remove_one l acks'
  end.

(** The transport hands the acknowledgment of loop [l] over to the
    rendezvous socket, some time after [l] has sent it. *)
Definition deliver (l : loop) (s : state) : option state :=
  if decide (l ∈ in_flight s) then
    Some (set_rendezvous (rendezvous s ++ [l])
            (set_in_flight (remove_one l (in_flight s)) s))
  else None.

(** What the scheduler and the environment choose at each step. *)
Inductive action : Type :=
  | RunMain
  | RunLoop (l : loop)
  | BindFails (l : loop)
  | Deliver (l : loop).

Definition step (a : action) (s : state) : option state :=
  match a with
  | RunMain => step_main s
  | RunLoop l => step_loop l s
  | BindFails l => bind_fails l s
  | Deliver l => deliver l s
  end.

Definition steps (s s' : state) : Prop := ∃ a, step a s = Some s'.

(** The states of the executions of [startup()]. *)
Definition reachable (s : state) : Prop := rtc steps init s.

(** The execution that follows the schedule [sched] from [s]. *)
Fixpoint run_schedule (sched : list action) (s : state) : option state :=
  match sched with
  | [] => Some s
  | a :: sched' =>
      match step a s with
      | Some s' => run_schedule sched' s'
      | None => None
      end
  end.

(** The number of acknowledgments of loop [l] in [acks]. *)
Fixpoint count (l : loop) (acks : list loop) : nat :=
  match acks with
  | [] => 0
  | l' :: acks' => (if decide (l = l') then 1 else 0) + count l acks'
  end.

(** The acknowledgments that loop [l] has sent. *)
Definition acked (l : loop) (s : state) : nat :=
  match pc_of l s with
  | Polling => 1
  | _ => 0
  end.

(** The receives that [startup()] has completed when it stands at [m]. *)
Definition receives_done (m : main_pc) : nat :=
  match m with
  | MRecv2 => 1
  | MRecv3 => 2
  | MClose | MReturned => 3
  | _ => 0
  end.

(** [startup()] holds the rendezvous socket bound. *)
Definition rendezvous_bound (m : main_pc) : Prop :=
  match m with
  | MBind | MReturned => False
  | _ => True
  end.

(** [startup()] has not started the thread of [l] yet. *)
Definition before_start (l : loop) (m : main_pc) : Prop :=
  match l, m with
  | _, (MBind | MStartDispatch) => True
  | (Receive | Announce), MStartReceive => True
  | Announce, MStartAnnounce => True
  | _, _ => False
  end.

Definition public_bound (p : loop_pc) : Prop :=
  match p with
  | BindControl | Signal | Polling => True
  | _ => False
  end.

Definition control_bound (p : loop_pc) : Prop :=
  match p with
  | Signal | Polling => True
  | _ => False
  end.

(** What holds in every state of every execution. *)
Record invariant (s : state) : Prop := mkInvariant {
  inv_acks : ∀ l,
    count l (in_flight s) + count l (rendezvous s) + count l (received s) =
      acked l s;
  inv_recv : length (received s) = receives_done (main s);
  inv_start : ∀ l, before_start l (main s) → pc_of l s = NotStarted;
  inv_public : ∀ l, public_bound (pc_of l s) → Public l ∈ bound s;
  inv_control : ∀ l, control_bound (pc_of l s) → Control l ∈ bound s;
  inv_rendezvous : StartupCtl ∈ bound s ↔ rendezvous_bound (main s);
}.

(** An execution in which every thread runs its statements in one go. *)
Definition sequential_schedule : list action :=
  [RunMain; RunMain; RunMain; RunMain;
   RunLoop Dispatch; RunLoop Dispatch; RunLoop Dispatch; Deliver Dispatch;
   RunLoop Receive; RunLoop Receive; RunLoop Receive; Deliver Receive;
   RunLoop Announce; RunLoop Announce; RunLoop Announce; Deliver Announce;
   RunMain; RunMain; RunMain; RunMain].

(** An execution in which the threads take turns, the announce loop is the
    first to acknowledge, and the acknowledgment of the dispatch loop
    overtakes the one of the receive loop. *)
Definition interleaved_schedule : list action :=
  [RunMain; RunMain; RunLoop Dispatch; RunMain; RunMain;
   RunLoop Announce; RunLoop Receive; RunLoop Announce; RunLoop Announce;
   Deliver Announce; RunMain; RunLoop Receive; RunLoop Dispatch;
   RunLoop Receive; RunLoop Dispatch; Deliver Dispatch; RunMain;
   Deliver Receive; RunMain; RunMain].

End Startup.

(** ** The worker: [ZMQWMProcess] *)

Module Worker.

(** How a call [fn( *args, **kwargs)] ends: it returns [v]; it raises an
    [Exception] [e], for which [traceback.format_exc()] gives [trace]; or it
    raises [e] that is not an [Exception] ([SystemExit],
    [KeyboardInterrupt]), which [except Exception] lets through. *)
Inductive outcome : Type :=
  | Returns (v : pyobj)
  | RaisesException (e : pyobj) (trace : string)
  | RaisesOther (e : pyobj).

(** The local variables of [run] and what the process did so far: the
    results it sent, the calls it made, what it logged. *)
Record worker : Type := mkWorker {
  last_seen_server_id : pyobj;
  task_socket_open : bool;
  result_socket_open : bool;
  result_sent : list pyobj;
  invoked : list (pyobj * pyobj * pyobj);
  log_error : list string;
}.

(** The state on entry to the loop of [run]. *)
Definition start : worker :=
  {| last_seen_server_id := PyNone; task_socket_open := true;
     result_socket_open := true; result_sent := []; invoked := [];
     log_error := [] |}.

(** [log.error(msg)] *)
Definition error (msg : string) (w : worker) : worker :=
  mkWorker (last_seen_server_id w) (task_socket_open w)
    (result_socket_open w) (result_sent w) (invoked w) (log_error w ++ [msg]).

Definition set_last_seen_server_id (server_id : pyobj) (w : worker) : worker :=
  mkWorker server_id (task_socket_open w) (result_socket_open w)
    (result_sent w) (invoked w) (log_error w).

(** [result_socket.send_pyobj(result_tuple)] *)
Definition send_result (result_tuple : pyobj) (w : worker) : worker :=
  mkWorker (last_seen_server_id w) (task_socket_open w)
    (result_socket_open w) (result_sent w ++ [result_tuple]) (invoked w)
    (log_error w).

(** The call [fn( *args, **kwargs)] is noted in [invoked]. *)
Definition record_call (fn args kwargs : pyobj) (w : worker) : worker :=
  mkWorker (last_seen_server_id w) (task_socket_open w)
    (result_socket_open w) (result_sent w) (invoked w ++ [(fn, args, kwargs)])
    (log_error w).

(** The [finally] clause of [run]. *)
Definition close_both (w : worker) : worker :=
  mkWorker (last_seen_server_id w) false false (result_sent w) (invoked w)
    (log_error w).

(** [server_id, task_id, fn, args, kwargs = task_tuple[:5]] *)
Definition unpack_task (task_tuple : pyobj)
  : py_exn + (pyobj * pyobj * pyobj * pyobj * pyobj) :=
  match py_slice_to 5 task_tuple with
  | None => inl TypeError
  | Some head => unpack5 head
  end.

Section run.

(** The Python evaluation of a call of a task function. *)
Variable invoke : pyobj → pyobj → pyobj → outcome.

(** The second [try] of the loop body and the send that follows it. *)
Definition execute (server_id task_id fn args kwargs : pyobj) (w : worker)
  : status * worker :=
  let w := record_call fn args kwargs w in
  match invoke fn args kwargs with
  | RaisesException e trace =>
      (Running,
       send_result
         (PyTuple [server_id; task_id; PyStr "exception";
                   PyTuple [e; PyStr trace]]) w)
  | Returns result =>
      (Running,
       send_result (PyTuple [server_id; task_id; PyStr "result"; result]) w)
  | RaisesOther e => (Raised (Uncaught e), w)
  end.

(** The body of the loop of [run], for the object [task_tuple] that
    [task_socket.recv_pyobj()] returns. *)
Definition run_body (task_tuple : pyobj) (w : worker) : status * worker :=
  match unpack_task task_tuple with
  | inl ValueError => (Running, error "malformed task received; ignoring" w)
  | inl e => (Raised e, w)
  | inr (server_id, task_id, fn, args, kwargs) =>
      if decide (last_seen_server_id w = PyNone) then
        execute server_id task_id fn args kwargs
          (set_last_seen_server_id server_id w)
      else if decide (last_seen_server_id w ≠ server_id) then
        (Raised ValueError, w)
      else execute server_id task_id fn args kwargs w
  end.

(** One pass of the loop, with the [finally] clause around it. *)
Definition run_pass (task_tuple : pyobj) (w : worker) : status * worker :=
  finally close_both (run_body task_tuple w).

(** [run] over the task messages [tasks] that arrive one after the other;
    [Running] at the end means that the loop is blocked in its next
    [recv_pyobj()]. *)
Fixpoint run (tasks : list pyobj) (w : worker) : status * worker :=
  match tasks with
  | [] => (Running, w)
  | task_tuple :: tasks' =>
      match run_pass task_tuple w with
      | (Running, w') => run tasks' w'
      | r => r
      end
  end.

End run.

(** [kwargs] is the empty dictionary. *)
Definition no_kwargs (kwargs : pyobj) : bool :=
  match kwargs with
  | PyDict d => bool_decide (d = ∅)
  | _ => false
  end.

(** Task functions for the examples: [add(a, b)] and [div(a, b)] on
    integers, and [sys.exit()], which raises [SystemExit]; any other call
    raises [TypeError]. *)
Definition sample_invoke (fn args kwargs : pyobj) : outcome :=
  if no_kwargs kwargs then
    match fn, args with
    | PyFunc "add", PyTuple [PyInt a; PyInt b] => Returns (PyInt (a + b))
    | PyFunc "div", PyTuple [PyInt a; PyInt b] =>
        if decide (b = 0%Z) then
          RaisesException
            (PyExc 1 "ZeroDivisionError" "integer division or modulo by zero")
            "Traceback (most recent call last): ..."
        else Returns (PyInt (a / b))
    | PyFunc "sys.exit", PyTuple [] => RaisesOther (PyExc 2 "SystemExit" "")
    | _, _ =>
        RaisesException (PyExc 3 "TypeError" "bad call")
          "Traceback (most recent call last): ..."
    end
  else
    RaisesException (PyExc 3 "TypeError" "bad call")
      "Traceback (most recent call last): ...".

(** The task message [(server, task, fn, (a, b), {})]. *)
Definition task_from (server : N) (task : N) (fn : string) (a b : Z) : pyobj :=
  PyTuple [PyUUID server; PyUUID task; PyFunc fn; PyTuple [PyInt a; PyInt b];
           PyDict ∅].

End Worker.

(** ** [recvall] and the IPC endpoints of [ZMQBase] *)

Module Base.

(** The [errno] of a [ZMQError]. *)
Inductive zmq_errno : Type := EAGAIN | ETERM | ENOTSOCK | EINTR.

#[global] Instance zmq_errno_eq_dec : EqDecision zmq_errno.
Proof. solve_decision. Defined.

(** What the successive calls [socket.recv(flags=zmq.NOBLOCK)] meet: a
    message that has arrived, or a [ZMQError].  When the list is used up
    nothing more has arrived, and the call raises [ZMQError] with [EAGAIN]. *)
Inductive recv_event : Type :=
  | Arrives (message : string)
  | Fails (errno : zmq_errno).

(** The loop of [recvall], with the [messages] collected so far: the list it
    returns or the error it raises again, and what is left for later calls. *)
Fixpoint recvall_loop (events : list recv_event) (messages : list string)
  : (zmq_errno + list string) * list recv_event :=
  match events with
  | [] => (inr messages, [])
  | Arrives message :: events' => recvall_loop events' (messages ++ [message])
  | Fails errno :: events' =>
      if decide (errno = EAGAIN) then (inr messages, events')
      else (inl errno, events')
  end.

Definition recvall (events : list recv_event)
  : (zmq_errno + list string) * list recv_event :=
  recvall_loop events [].

(** A line of [log.debug] in [remove_ipc_endpoints]. *)
Inductive debug_line : Type :=
  | Unlinked (socket_path : string)
  | CouldNotUnlink (socket_path : string).

(** The class attribute [ZMQBase._ipc_endpoints], the files that exist, and
    the debug log. *)
Record ipc_state : Type := mkIpc {
  _ipc_endpoints : list string;
  files : gset string;
  log_debug : list debug_line;
}.

(** [make_ipc_endpoint]; [socket_path] is the path of the file that
    [tempfile.mkstemp()] creates. *)
Definition make_ipc_endpoint (socket_path : string) (st : ipc_state)
  : string * ipc_state :=
  let endpoint := "ipc://" +:+ socket_path in
  (endpoint,
   mkIpc (_ipc_endpoints st ++ [endpoint]) ({[socket_path]} ∪ files st)
     (log_debug st)).

(** [s[n:]] *)
Fixpoint py_slice_from (n : nat) (s : string) : string :=
  match n, s with
  | 0, _ => s
  | S n', String _ s' => py_slice_from n' s'
  | S _, EmptyString => EmptyString
  end.

(** [os.unlink(path)]: [None] where it raises [OSError] because there is no
    such file. *)
Definition os_unlink (path : string) (fs : gset string)
  : option (gset string) :=
  if decide (path ∈ fs) then Some (fs ∖ {[path]}) else None.

(** How [remove_ipc_endpoints] ends. *)
Inductive removal : Type := Removed | AssertionError.

(** The loop of [remove_ipc_endpoints]; [stack] is the registry with the
    endpoint first that [pop()] takes first. *)
Fixpoint remove_loop (stack : list string) (fs : gset string)
    (log : list debug_line)
  : removal * list string * gset string * list debug_line :=
  match stack with
  | [] => (Removed, [], fs, log)
  | endpoint :: stack' =>
      if String.prefix "ipc://" endpoint then
        let socket_path := py_slice_from 6 endpoint in
        match os_unlink socket_path fs with
        | None => remove_loop stack' fs (log ++ [CouldNotUnlink socket_path])
        | Some fs' => remove_loop stack' fs' (log ++ [Unlinked socket_path])
        end
      else (AssertionError, stack', fs, log)
  end.

Definition remove_ipc_endpoints (st : ipc_state) : removal * ipc_state :=
  let '(r, stack, fs, log) :=
    remove_loop (reverse (_ipc_endpoints st)) (files st) (log_debug st) in
  (r, mkIpc (reverse stack) fs log).

(** The calls [make_ipc_endpoint()] that create the files [paths], one after
    the other. *)
Definition make_ipc_endpoints (paths : list string) (st : ipc_state)
  : ipc_state :=
  foldl (λ st socket_path, (make_ipc_endpoint socket_path st).2) st paths.

End Base.

(** ** Descriptions of what the loops do over many passes *)

Module Streams.

(** What a pass of the announce loop broadcasts. *)
Definition broadcast (ev : announce_poll) : list string :=
  match ev with
  | Woken messages _ =>
      if bool_decide ("shutdown" ∈ messages) then ["shutdown"] else messages
  | TimedOut _ _ => ["ping"]
  end.

(** The poll brings a ['shutdown']. *)
Definition brings_shutdown (ev : announce_poll) : Prop :=
  match ev with
  | Woken messages _ => "shutdown" ∈ messages
  | TimedOut _ _ => False
  end.

(** The clock readings of the polls never go back: each reading is at least
    the time of the last heartbeat, [last]. *)
Fixpoint clock_ok (last : Q) (evs : list announce_poll) : Prop :=
  match evs with
  | [] => True
  | Woken _ now :: evs' => (last <= now)%Q ∧ clock_ok last evs'
  | TimedOut t now :: evs' => (t <= now)%Q ∧ clock_ok t evs'
  end.

Section worker.
Variable invoke : pyobj → pyobj → pyobj → Worker.outcome.



End worker.

(** What the poll of the receive loop reports when the result message
    [(instance_id, task_id, 'result', value)] has arrived and the control
    socket is silent. *)
Definition result_message (r : pyobj * pyobj * pyobj)
  : option (list string) * option pyobj :=
  let '(instance_id, task_id, value) := r in
  (None, Some (PyTuple [instance_id; task_id; PyStr "result"; value])).

Definition result_task (r : pyobj * pyobj * pyobj) : pyobj := r.1.2.

(** What the caller's thread, the dispatch loop and the receive loop do to
    the process, one after the other. *)
Inductive operation : Type :=
  | CallSubmit (tid fn args kwargs : pyobj)
  | CallSubmitMany (tasks : list (pyobj * (pyobj * pyobj * pyobj)))
  | CallShutdown
  | DispatchPass (ctl : option (list string))
  | ReceivePass (ctl : option (list string)) (result : option pyobj).

Definition perform (w : world) (op : operation) : world :=
  match op with
  | CallSubmit tid fn args kwargs => (submit tid fn args kwargs w).2
  | CallSubmitMany tasks => (submit_many tasks w).2
  | CallShutdown => shutdown w
  | DispatchPass ctl => (_dispatch_loop_pass ctl w).2
  | ReceivePass ctl result => (_receive_loop_pass ctl result w).2
  end.

(** Every entry of the registry refers to a future that exists and carries
    the task id of the entry. *)
Definition registry_names_futures (w : world) : Prop :=
  ∀ k ft, pending_futures (self w) !! k = Some ft →
    ∃ fut, heap w !! ft = Some fut ∧ task_id fut = k.

(** Every result that the worker has sent carries the server id that the
    worker remembers, or [None]. *)
Definition one_server (w : Worker.worker) : Prop :=
  Forall (λ res, ∃ server_id task_id result_type payload,
            res = PyTuple [server_id; task_id; result_type; payload] ∧
            (server_id = PyNone ∨ server_id = Worker.last_seen_server_id w))
    (Worker.result_sent w).

(** The four [inproc://] endpoints of a coordinator. *)
Definition inproc_endpoints (s : ZMQWMServer) : list string :=
  [_startup_ctl_endpoint s; _dispatch_thread_ctl_endpoint s;
   _receive_thread_ctl_endpoint s; _announce_endpoint s].

(** The calls [submit(fn, *args, **kwargs)] for the tasks of [tasks], one
    after the other. *)
Definition submit_each (tasks : list (pyobj * (pyobj * pyobj * pyobj)))
    (w : world) : world :=
  foldl (λ w task,
           let '(tid, (fn, args, kwargs)) := task in
           (submit tid fn args kwargs w).2) w tasks.

(** [n] empty messages sent to the endpoint [ep]. *)
Definition wake (ep : string) (n : nat) (w : world) : world :=
  with_inproc
    (λ net, <[ep := default [] (net !! ep) ++ replicate n ""]> net) w.

(** No bind fails in the schedule. *)
Definition fail_free (sched : list Startup.action) : Prop :=
  ∀ l, Startup.BindFails l ∉ sched.

(** The statements that [startup()] has still to execute. *)
Definition main_left (m : Startup.main_pc) : nat :=
  match m with
  | Startup.MBind => 8
  | Startup.MStartDispatch => 7
  | Startup.MStartReceive => 6
  | Startup.MStartAnnounce => 5
  | Startup.MRecv1 => 4
  | Startup.MRecv2 => 3
  | Startup.MRecv3 => 2
  | Startup.MClose => 1
  | Startup.MReturned => 0
  end.

(** The steps that a loop has still to take until its acknowledgment is
    sent, and the delivery of the acknowledgment. *)
Definition loop_left (p : Startup.loop_pc) : nat :=
  match p with
  | Startup.NotStarted | Startup.BindPublic => 4
  | Startup.BindControl => 3
  | Startup.Signal => 2
  | Startup.Polling | Startup.Crashed => 0
  end.

(** A thread that has not started is one that [startup()] has yet to
    start. *)
Definition started_ok (s : Startup.state) : Prop :=
  ∀ l, Startup.pc_of l s = Startup.NotStarted →
       Startup.before_start l (Startup.main s).

Definition no_crash (s : Startup.state) : Prop :=
  ∀ l, Startup.pc_of l s ≠ Startup.Crashed.

Definition not_a_failure (a : Startup.action) : Prop :=
  ∀ l, a ≠ Startup.BindFails l.

(** A bound on the steps that are left in an execution of the start-up. *)
Definition steps_left (s : Startup.state) : nat :=
  main_left (Startup.main s) +
  loop_left (Startup.dispatch_pc s) + loop_left (Startup.receive_pc s) +
  loop_left (Startup.announce_pc s) + length (Startup.in_flight s).

End Streams.

(** * Properties *)

(** ** The worker loop *)

Module WorkerFacts.
Import Worker.

Section facts.
Variable invoke : pyobj → pyobj → pyobj → outcome.

Lemma finally_running {A} (cleanup : A → A) (r : status * A) a :
  finally cleanup r = (Running, a) ↔ r = (Running, a).
Proof. destruct r as [[| |e] x]; unfold finally; simpl; naive_solver. Qed.

Lemma unpack_task_seq o xs :
  py_seq o = Some xs → unpack_task o = unpack5 (PyTuple (take 5 xs)).
Proof.
  intros Hseq. unfold unpack_task.
  destruct (py_seq_slice_to 5 o xs Hseq) as (head & -> & Hhead).
  unfold unpack5. by rewrite Hhead.
Qed.

Lemma unpack_task_short o xs :
  py_seq o = Some xs → length xs < 5 → unpack_task o = inl ValueError.
Proof.
  intros Hseq Hlen. rewrite (unpack_task_seq o xs Hseq).
  apply (unpack5_ValueError _ (take 5 xs)); [done|].
  rewrite length_take. lia.
Qed.

Lemma unpack_task_long o xs :
  py_seq o = Some xs → 5 ≤ length xs →
  ∃ a b c d e, take 5 xs = [a; b; c; d; e] ∧ unpack_task o = inr (a, b, c, d, e).
Proof.
  intros Hseq Hlen. rewrite (unpack_task_seq o xs Hseq).
  destruct xs as [|a [|b [|c [|d [|e rest]]]]]; simpl in Hlen; try lia.
  by exists a, b, c, d, e.
Qed.

Lemma execute_last_seen sid tid fn args kwargs w st w' :
  execute invoke sid tid fn args kwargs w = (st, w') →
  last_seen_server_id w' = last_seen_server_id w.
Proof.
  unfold execute. destruct (invoke fn args kwargs); intros [= <- <-]; done.
Qed.

(** While the loop runs, a remembered server is never replaced. *)
Lemma run_pass_keeps_server m w w' :
  run_pass invoke m w = (Running, w') →
  last_seen_server_id w ≠ PyNone →
  last_seen_server_id w' = last_seen_server_id w.
Proof.
  unfold run_pass. rewrite finally_running. unfold run_body.
  destruct (unpack_task m) as [[]|[[[[sid tid] fn] args] kwargs]];
    try (intros [= <-]; done); try done.
  intros Hrun Hseen. rewrite decide_False in Hrun by done.
  destruct (decide (last_seen_server_id w ≠ sid)); [done|].
  by apply execute_last_seen in Hrun.
Qed.

Lemma run_keeps_server ms w w' :
  run invoke ms w = (Running, w') →
  last_seen_server_id w ≠ PyNone →
  last_seen_server_id w' = last_seen_server_id w.
Proof.
  revert w. induction ms as [|m ms IH]; simpl; intros w.
  - by intros [= <-].
  - destruct (run_pass invoke m w) as [[| |e] w1] eqn:Hpass; try done.
    intros Hrun Hseen.
    pose proof (run_pass_keeps_server _ _ _ Hpass Hseen) as Hkeep.
    rewrite (IH w1 Hrun); [done|]. by rewrite Hkeep.
Qed.

(** A task that the loop survives leaves its server remembered. *)
Lemma run_pass_remembers m sid tid fn args kwargs w w' :
  unpack_task m = inr (sid, tid, fn, args, kwargs) →
  run_pass invoke m w = (Running, w') →
  sid ≠ PyNone →
  last_seen_server_id w' = sid.
Proof.
  unfold run_pass. rewrite finally_running. unfold run_body. intros ->.
  destruct (decide (last_seen_server_id w = PyNone)).
  - intros Hrun _. by apply execute_last_seen in Hrun.
  - destruct (decide (last_seen_server_id w ≠ sid)) as [|Heq]; [done|].
    intros Hrun _. apply execute_last_seen in Hrun.
    rewrite Hrun. by apply dec_stable.
Qed.

Lemma run_app ms1 ms2 w :
  run invoke (ms1 ++ ms2) w =
    match run invoke ms1 w with
    | (Running, w') => run invoke ms2 w'
    | r => r
    end.
Proof.
  revert w. induction ms1 as [|m ms1 IH]; simpl; intros w; [done|].
  destruct (run_pass invoke m w) as [[| |e] w1]; auto.
Qed.

Lemma run_remembers before m after sid tid fn args kwargs w w' :
  unpack_task m = inr (sid, tid, fn, args, kwargs) →
  sid ≠ PyNone →
  run invoke (before ++ m :: after) w = (Running, w') →
  last_seen_server_id w' = sid.
Proof.
  intros Hm Hsid. rewrite run_app.
  destruct (run invoke before w) as [[| |e] w1]; try done. simpl.
  destruct (run_pass invoke m w1) as [[| |e] w2] eqn:Hpass; try done.
  intros Hrun.
  pose proof (run_pass_remembers _ _ _ _ _ _ _ _ Hm Hpass Hsid) as Hw2.
  rewrite (run_keeps_server _ _ _ Hrun); by rewrite Hw2.
Qed.

End facts.
End WorkerFacts.

Section worker_loop.
Import Worker WorkerFacts.
Variable invoke : pyobj → pyobj → pyobj → outcome.

(** C3. Instance identities are the UUIDs that [ZMQBase.__init__] draws.
    Once the worker loop has processed a well-formed task message of the
    instance [A] and is still running, a well-formed task message of an
    instance [B] different from [A] ends the loop with the [ValueError] of
    the zombie check: both sockets are closed, the task function is not
    called, no result message is sent, and no later message is looked at. *)
Theorem worker_second_server_is_fatal
    (before after later : list pyobj) (m1 m2 : pyobj) (A B : N)
    (t1 f1 a1 k1 t2 f2 a2 k2 : pyobj) (w : worker) :
  unpack_task m1 = inr (PyUUID A, t1, f1, a1, k1) →
  unpack_task m2 = inr (PyUUID B, t2, f2, a2, k2) →
  B ≠ A →
  run invoke (before ++ m1 :: after) start = (Running, w) →
  ∃ w',
    run_pass invoke m2 w = (Raised ValueError, w') ∧
    run invoke (m2 :: later) w = (Raised ValueError, w') ∧
    task_socket_open w' = false ∧
    result_socket_open w' = false ∧
    invoked w' = invoked w ∧
    result_sent w' = result_sent w.
Proof.
  intros Hm1 Hm2 HB Hrun.
  assert (PyUUID A ≠ PyNone) as HA by done.
  pose proof (run_remembers invoke _ _ _ _ _ _ _ _ _ _ Hm1 HA Hrun) as Hseen.
  assert (run_pass invoke m2 w = (Raised ValueError, close_both w)) as Hpass.
  { unfold run_pass, run_body. rewrite Hm2.
    rewrite decide_False by (by rewrite Hseen).
    rewrite decide_True by (rewrite Hseen; congruence). done. }
  exists (close_both w). split; [done|]. split; [|done].
  simpl. by rewrite Hpass.
Qed.


(** C10. A task message that is a sequence of more than five elements is
    accepted: the pass treats it as the message made of its first five
    elements and never looks at the others.  A sequence is malformed exactly
    when it has fewer than five elements. *)
Theorem worker_ignores_extra_elements (m : pyobj) (xs : list pyobj)
    (w : worker) :
  py_seq m = Some xs →
  (unpack_task m = inl ValueError ↔ length xs < 5) ∧
  (5 < length xs →
   ∃ server_id task_id fn args kwargs,
     take 5 xs = [server_id; task_id; fn; args; kwargs] ∧
     unpack_task m = inr (server_id, task_id, fn, args, kwargs) ∧
     run_pass invoke m w =
       run_pass invoke (PyTuple [server_id; task_id; fn; args; kwargs]) w).
Proof.
  intros Hseq. split.
  - split; [|by apply unpack_task_short].
    intros Hbad. destruct (decide (length xs < 5)) as [|Hlong]; [done|].
    destruct (unpack_task_long m xs Hseq) as (a & b & c & d & e & _ & Hok);
      [lia|congruence].
  - intros Hlen.
    destruct (unpack_task_long m xs Hseq) as (a & b & c & d & e & Htake & Hok);
      [lia|].
    exists a, b, c, d, e. split_and!; [done..|].
    unfold run_pass, run_body. by rewrite Hok.
Qed.

End worker_loop.

(** ** The receive loop *)

Module ReceiveFacts.

Lemma finally_fields (cleanup : world → world) (r : status * world) :
  (∀ w, self (cleanup w) = self w ∧ heap (cleanup w) = heap w ∧
        log_error (cleanup w) = log_error w) →
  (finally cleanup r).1 = r.1 ∧
  self (finally cleanup r).2 = self r.2 ∧
  heap (finally cleanup r).2 = heap r.2 ∧
  log_error (finally cleanup r).2 = log_error r.2.
Proof.
  intros Hclean. destruct r as [[| |e] w]; unfold finally; simpl;
    try done; destruct (Hclean w) as (? & ? & ?); done.
Qed.

Lemma close_sockets_fields names w :
  self (close_sockets names w) = self w ∧
  heap (close_sockets names w) = heap w ∧
  log_error (close_sockets names w) = log_error w.
Proof. done. Qed.

Lemma dict_pop_Popped {V} key (d rest : gmap pyobj V) v :
  dict_pop key d = Popped v rest ↔ d !! key = Some v ∧ rest = delete key d.
Proof.
  unfold dict_pop. destruct (d !! key) as [v'|].
  - split; [intros [= -> ->]; done | intros [[= ->] ->]; done].
  - destruct (hashable key); split; try done; intros [? _]; done.
Qed.

(** A pass with a result and no shutdown request is [receive_result]. *)
Lemma receive_pass_running ctl msg w w' :
  shutdown_requested ctl = false →
  receive_result msg w = (Running, w') →
  _receive_loop_pass ctl (Some msg) w = (Running, w').
Proof. unfold _receive_loop_pass. by intros -> ->. Qed.

(** A future that the registry does not refer to is out of reach of the
    loop, now and after the pass. *)
Lemma receive_result_unreachable msg w st w' (r : nat) :
  receive_result msg w = (st, w') →
  (∀ k, pending_futures (self w) !! k ≠ Some r) →
  heap w' !! r = heap w !! r ∧
  (∀ k, pending_futures (self w') !! k ≠ Some r).
Proof.
  unfold receive_result.
  destruct (unpack4 msg) as [[]|[[[iid tid] rt] payload]];
    try (intros [= <- <-]; done).
  set (w1 := if decide (iid ≠ instance_id (self w)) then _ else w).
  assert (self w1 = self w ∧ heap w1 = heap w) as [Hself Hheap]
    by (unfold w1; case_decide; done).
  rewrite Hself.
  destruct (dict_pop tid (pending_futures (self w))) as [ft rest| |] eqn:Hpop;
    try (intros [= <- <-] Hout; simpl; rewrite ?Hself, ?Hheap; done).
  apply dict_pop_Popped in Hpop as [Hft ->].
  intros Hres Hout.
  assert (ft ≠ r) as Hne by (intros ->; by apply (Hout tid)).
  assert (∀ k, delete tid (pending_futures (self w)) !! k ≠ Some r) as Hout'.
  { intros k Hk. apply lookup_delete_Some in Hk as [_ Hk]. by apply (Hout k). }
  repeat case_decide.
  - injection Hres as <- <-. simpl. rewrite Hheap.
    split; [by apply list_lookup_alter_ne | done].
  - unfold set_exception_star in Hres.
    destruct (py_iter payload) as [[|e [|tb [|? ?]]]|];
      injection Hres as <- <-; simpl; rewrite ?Hheap; try done.
    split; [by apply list_lookup_alter_ne | done].
  - injection Hres as <- <-. simpl. by rewrite Hheap.
Qed.

(** Submissions and passes of the receive loop keep the registry sound. *)
Lemma registry_ok_fresh s :
  pending_futures s = ∅ → registry_ok (fresh_world s).
Proof. intros Hempty k ft. simpl. by rewrite Hempty, lookup_empty. Qed.

Lemma registry_ok_make_append_task tid fn args kwargs w :
  registry_ok w → registry_ok (_make_append_task tid fn args kwargs w).2.
Proof.
  intros Hok k ft. simpl. rewrite length_app. simpl.
  destruct (decide (tid = k)) as [->|Hne].
  - rewrite lookup_insert_eq. intros [= <-]. split; [lia|].
    intros k'. destruct (decide (k = k')) as [|Hne']; [done|].
    rewrite lookup_insert_ne by done. intros [Hlt _]%Hok. lia.
  - rewrite lookup_insert_ne by done. intros Hk.
    destruct (Hok k ft Hk) as [Hlt Honly]. split; [lia|].
    intros k'. destruct (decide (tid = k')) as [<-|Hne'].
    + rewrite lookup_insert_eq. intros [= <-]. lia.
    + rewrite lookup_insert_ne by done. apply Honly.
Qed.

Lemma registry_ok_submit tid fn args kwargs w :
  registry_ok w → registry_ok (submit tid fn args kwargs w).2.
Proof. apply registry_ok_make_append_task. Qed.

Lemma registry_ok_delete key w :
  registry_ok w →
  registry_ok
    (with_self (set_pending_futures (delete key (pending_futures (self w)))) w).
Proof.
  intros Hok k ft. simpl. intros [Hne Hk]%lookup_delete_Some.
  destruct (Hok k ft Hk) as [Hlt Honly]. split; [done|].
  intros k' [_ Hk']%lookup_delete_Some. by apply Honly.
Qed.

Lemma registry_ok_fields w w' :
  self w' = self w → length (heap w') = length (heap w) →
  registry_ok w → registry_ok w'.
Proof. unfold registry_ok. by intros -> ->. Qed.

Lemma registry_ok_receive_result msg w st w' :
  receive_result msg w = (st, w') → registry_ok w → registry_ok w'.
Proof.
  unfold receive_result.
  destruct (unpack4 msg) as [[]|[[[iid tid] rt] payload]];
    try (intros [= <- <-]; done).
  set (w1 := if decide (iid ≠ instance_id (self w)) then _ else w).
  intros Hres Hok.
  assert (registry_ok w1) as Hok1
    by (unfold w1; destruct (decide (iid ≠ instance_id (self w))); done).
  clearbody w1. clear Hok.
  destruct (dict_pop tid (pending_futures (self w1))) as [ft rest| |] eqn:Hpop;
    try (injection Hres as <- <-; done).
  apply dict_pop_Popped in Hpop as [Hft ->].
  pose proof (registry_ok_delete tid w1 Hok1) as Hok2.
  repeat case_decide.
  - injection Hres as <- <-.
    eapply registry_ok_fields; [| |exact Hok2]; [done|].
    simpl. by rewrite length_alter.
  - unfold set_exception_star in Hres.
    destruct (py_iter payload) as [[|e [|tb [|? ?]]]|];
      injection Hres as <- <-; try done.
    eapply registry_ok_fields; [| |exact Hok2]; [done|].
    simpl. by rewrite length_alter.
  - injection Hres as <- <-. done.
Qed.

Lemma receive_pass_unreachable ctl result w st w' (r : nat) :
  _receive_loop_pass ctl result w = (st, w') →
  (∀ k, pending_futures (self w) !! k ≠ Some r) →
  heap w' !! r = heap w !! r ∧
  (∀ k, pending_futures (self w') !! k ≠ Some r).
Proof.
  unfold _receive_loop_pass. intros Hpass Hout.
  set (inner := if shutdown_requested ctl then (Returned, w)
                else match result with
                     | Some msg => receive_result msg w
                     | None => (Running, w)
                     end) in Hpass.
  assert (heap inner.2 !! r = heap w !! r ∧
          (∀ k, pending_futures (self inner.2) !! k ≠ Some r)) as [Hh Hp].
  { unfold inner. destruct (shutdown_requested ctl); [done|].
    destruct result as [msg|]; [|done].
    destruct (receive_result msg w) as [st0 w0] eqn:Hres.
    apply (receive_result_unreachable _ _ _ _ r Hres Hout). }
  destruct (finally_fields (close_sockets receive_sockets) inner
              (close_sockets_fields _)) as (_ & Hs & Hh' & _).
  rewrite Hpass in Hs, Hh'. simpl in *. by rewrite Hs, Hh'.
Qed.

Lemma receive_passes_unreachable polls w st w' (r : nat) :
  receive_passes polls w = (st, w') →
  (∀ k, pending_futures (self w) !! k ≠ Some r) →
  heap w' !! r = heap w !! r.
Proof.
  revert w. induction polls as [|[ctl result] polls IH]; simpl; intros w.
  - by intros [= <- <-].
  - destruct (_receive_loop_pass ctl result w) as [st1 w1] eqn:Hpass.
    intros Hall Hout.
    destruct (receive_pass_unreachable _ _ _ _ _ r Hpass Hout) as [Hh Hp].
    destruct st1; [rewrite (IH w1 Hall Hp); done | | ];
      injection Hall as <- <-; done.
Qed.

End ReceiveFacts.

Section receive_loop.
Import ReceiveFacts.

(** C1 fails on the code.  The result [(UUID 2, UUID 100, 'result', 5)] comes
    from another instance than the coordinator's (UUID 1).  The receive loop
    logs that it ignores it, and then goes on with it all the same: the
    pending future is taken out of the registry and fulfilled with [5]. *)
Theorem foreign_result_resolves_future :
  let msg := PyTuple [PyUUID 2; PyUUID 100; PyStr "result"; PyInt 5] in
  PyUUID 2 ≠ instance_id (self one_pending) ∧
  pending_futures (self one_pending) !! PyUUID 100 = Some 0 ∧
  heap one_pending !! 0 = Some (new_future (PyUUID 100)) ∧
  ∃ w',
    _receive_loop_pass None (Some msg) one_pending = (Running, w') ∧
    pending_futures (self w') !! PyUUID 100 = None ∧
    heap w' !! 0 =
      Some {| task_id := PyUUID 100; fstate := Fulfilled (PyInt 5) |} ∧
    log_error w' =
      ["received result for instance {!s} but this is instance {!s}; ignoring. Zombie client?"].
Proof.
  intros msg. split_and!; [done| by vm_compute | done |].
  exists (_receive_loop_pass None (Some msg) one_pending).2.
  split_and!; by vm_compute.
Qed.

(** The same at every input: but for the line it logs, a pass treats a
    result of another instance like one of its own. *)
Lemma receive_result_foreign_like_own iid tid rt payload w :
  iid ≠ instance_id (self w) →
  let own := receive_result (PyTuple [instance_id (self w); tid; rt; payload]) w in
  let foreign := receive_result (PyTuple [iid; tid; rt; payload]) w in
  foreign.1 = own.1 ∧
  self foreign.2 = self own.2 ∧
  heap foreign.2 = heap own.2.
Proof.
  intros Hne. unfold receive_result. simpl.
  rewrite decide_True by done. rewrite decide_False by (intros H; by apply H).
  simpl.
  destruct (dict_pop tid (pending_futures (self w))) as [ft rest| |];
    try done.
  repeat case_decide; try done.
  unfold set_exception_star.
  destruct (py_iter payload) as [[|e [|tb [|? ?]]]|]; done.
Qed.

(** C9. A well-formed result message whose task id is pending and whose
    result type is neither ['result'] nor ['exception'] takes the future out
    of the registry before the result type is looked at: the pass leaves the
    future as it was, and the loop never reaches it again, whatever it
    receives later.  (The registry is sound, as submissions and the loop
    keep it: it holds the future under this task id only.) *)
Theorem unknown_result_type_discards_future
    (ctl : option (list string)) (msg iid tid rt payload : pyobj) (ft : nat)
    (w : world) :
  registry_ok w →
  shutdown_requested ctl = false →
  unpack4 msg = inr (iid, tid, rt, payload) →
  pending_futures (self w) !! tid = Some ft →
  rt ≠ PyStr "result" →
  rt ≠ PyStr "exception" →
  ∃ w',
    _receive_loop_pass ctl (Some msg) w = (Running, w') ∧
    pending_futures (self w') = delete tid (pending_futures (self w)) ∧
    pending_futures (self w') !! tid = None ∧
    heap w' = heap w ∧
    (∀ later st w'',
       receive_passes later w' = (st, w'') → heap w'' !! ft = heap w !! ft).
Proof.
  intros Hok Hctl Hmsg Hft Hres Hexc.
  destruct (Hok tid ft Hft) as [_ Honly].
  assert (∃ w1, self w1 = self w ∧ heap w1 = heap w ∧
            receive_result msg w =
              (Running,
               error "received unknown result type {!r} for task {!s}; ignoring. Incompatible/zombie client?"
                 (with_self
                    (set_pending_futures (delete tid (pending_futures (self w))))
                    w1)))
    as (w1 & Hself & Hheap & Hpass).
  { unfold receive_result. rewrite Hmsg.
    destruct (decide (iid ≠ instance_id (self w))).
    - eexists (error _ w). split_and!; [done..|].
      unfold dict_pop. simpl. rewrite Hft.
      repeat case_decide; done.
    - exists w. split_and!; [done..|].
      unfold dict_pop. rewrite Hft.
      repeat case_decide; done. }
  eexists. split_and!.
  - apply receive_pass_running; [done|]. exact Hpass.
  - done.
  - simpl. apply lookup_delete_eq.
  - done.
  - intros later st w'' Hlater.
    rewrite (receive_passes_unreachable _ _ _ _ ft Hlater);
      [simpl; by rewrite Hheap|].
    simpl. intros k Hk.
    apply lookup_delete_Some in Hk as [Hne Hk]. by apply Hne, eq_sym, Honly.
Qed.

End receive_loop.

Section malformed.
Import Worker WorkerFacts ReceiveFacts.
Variable invoke : pyobj → pyobj → pyobj → outcome.

(** C8, amended.  A result that is iterable and yields a number of elements
    other than four, and a task that is a sequence of fewer than five
    elements, are logged and dropped: the pass changes nothing but the log
    (the registry, the futures and the queue of the coordinator, the
    remembered server and the sockets of the worker are as before) and the
    loop goes on. *)
Theorem malformed_messages_are_dropped
    (ctl : option (list string)) (result : pyobj) (rs : list pyobj)
    (sw : world) (task : pyobj) (ts : list pyobj) (ww : worker) :
  shutdown_requested ctl = false →
  py_iter result = Some rs →
  length rs ≠ 4 →
  py_seq task = Some ts →
  length ts < 5 →
  (∃ sw',
     _receive_loop_pass ctl (Some result) sw = (Running, sw') ∧
     Server.log_error sw' =
       Server.log_error sw ++ ["received malformed result; ignorning"] ∧
     self sw' = self sw ∧ heap sw' = heap sw ∧ inproc sw' = inproc sw ∧
     task_sent sw' = task_sent sw ∧ announced sw' = announced sw ∧
     open_sockets sw' = open_sockets sw) ∧
  (∃ ww',
     run_pass invoke task ww = (Running, ww') ∧
     Worker.log_error ww' =
       Worker.log_error ww ++ ["malformed task received; ignoring"] ∧
     last_seen_server_id ww' = last_seen_server_id ww ∧
     result_sent ww' = result_sent ww ∧ invoked ww' = invoked ww ∧
     task_socket_open ww' = task_socket_open ww ∧
     result_socket_open ww' = result_socket_open ww).
Proof.
  intros Hctl Hrs Hlen4 Hts Hlen5. split.
  - eexists. split.
    + apply receive_pass_running; [done|]. unfold receive_result.
      by rewrite (unpack4_ValueError result rs).
    + done.
  - eexists. split.
    + unfold run_pass, run_body.
      by rewrite (unpack_task_short task ts).
    + done.
Qed.

End malformed.

(** ** The task queue and the dispatch loop *)

Module DispatchFacts.

Lemma drain_spec q sent : drain q sent = ([], sent ++ q).
Proof.
  revert sent. induction q as [|t q IH]; intros sent; simpl.
  - by rewrite app_nil_r.
  - by rewrite IH, <- app_assoc.
Qed.






End DispatchFacts.


(** ** Shutdown *)

Module ShutdownFacts.

Lemma sent_to_signal_eq ep m w :
  sent_to ep (_signal_thread ep m w) = sent_to ep w ++ [m].
Proof. unfold sent_to, _signal_thread. simpl. by rewrite lookup_insert_eq. Qed.

Lemma sent_to_signal_ne ep ep' m w :
  ep ≠ ep' → sent_to ep' (_signal_thread ep m w) = sent_to ep' w.
Proof.
  intros Hne. unfold sent_to, _signal_thread. simpl.
  by rewrite lookup_insert_ne.
Qed.

Lemma sent_to_signal ep ep' m w :
  sent_to ep' (_signal_thread ep m w) =
    if decide (ep = ep') then sent_to ep' w ++ [m] else sent_to ep' w.
Proof.
  case_decide as H; [subst; apply sent_to_signal_eq|].
  by apply sent_to_signal_ne.
Qed.

Lemma shutdown_unfold w :
  _shutdown_signaled (self w) = false →
  shutdown w =
    _signal_thread (_announce_endpoint (self w)) "shutdown"
      (_signal_thread (_receive_thread_ctl_endpoint (self w)) "shutdown"
         (_signal_thread (_dispatch_thread_ctl_endpoint (self w)) "shutdown"
            (with_self (set_shutdown_signaled true) w))).
Proof. unfold shutdown. by intros ->. Qed.

Lemma shutdown_again w : shutdown (shutdown w) = shutdown w.
Proof.
  destruct (_shutdown_signaled (self w)) eqn:Hflag.
  - unfold shutdown. rewrite Hflag. simpl. by rewrite Hflag.
  - rewrite (shutdown_unfold w Hflag). done.
Qed.

Lemma shutdown_repeated n w : Nat.iter n shutdown (shutdown w) = shutdown w.
Proof.
  induction n as [|n IH]; simpl; [done|]. rewrite IH. apply shutdown_again.
Qed.

(** The control endpoints that [__init__] makes differ from each other. *)
Lemma init_control_endpoints_distinct id_self uuid4 t r a :
  NoDup (control_endpoints (__init__ id_self uuid4 t r a)).
Proof.
  unfold control_endpoints. simpl.
  repeat (apply NoDup_cons; split);
    [ | | | apply NoDup_nil_2];
    rewrite ?elem_of_cons, ?elem_of_nil; intros H;
    repeat (destruct H as [H|H]); try done; simplify_eq.
Qed.

End ShutdownFacts.

(** C5. The first call of [shutdown] (the flag is down, the three control
    endpoints differ) sends exactly one ['shutdown'] to each of the three
    control endpoints and nothing anywhere else, and raises the flag.  Any
    number of further calls changes nothing at all: no flag, no message. *)
Theorem shutdown_is_idempotent (w : world) :
  NoDup (control_endpoints (self w)) →
  _shutdown_signaled (self w) = false →
  (∀ ep, ep ∈ control_endpoints (self w) →
     sent_to ep (shutdown w) = sent_to ep w ++ ["shutdown"]) ∧
  (∀ ep, ep ∉ control_endpoints (self w) →
     sent_to ep (shutdown w) = sent_to ep w) ∧
  _shutdown_signaled (self (shutdown w)) = true ∧
  (∀ n, Nat.iter n shutdown (shutdown w) = shutdown w).
Proof.
  intros Hdistinct Hflag.
  split_and!; [| | |intros n; apply ShutdownFacts.shutdown_repeated].
  all: rewrite (ShutdownFacts.shutdown_unfold w Hflag).
  all: unfold control_endpoints in *.
  all: apply NoDup_cons in Hdistinct as [Hd Hdistinct].
  all: apply NoDup_cons in Hdistinct as [Hr _].
  all: rewrite !elem_of_cons, elem_of_nil in Hd.
  all: rewrite !elem_of_cons, elem_of_nil in Hr.
  - intros ep Hep. rewrite !elem_of_cons, elem_of_nil in Hep.
    rewrite !ShutdownFacts.sent_to_signal. simpl.
    repeat case_decide; subst; try done; intuition congruence.
  - intros ep Hep. rewrite !elem_of_cons, elem_of_nil in Hep.
    rewrite !ShutdownFacts.sent_to_signal. simpl.
    repeat case_decide; subst; try done; intuition congruence.
  - done.
Qed.

(** ** The announce loop *)

Module AnnounceFacts.

(** Woken or not, a pass that finds less than a period elapsed since the
    last heartbeat waits next for the elapsed time. *)
Lemma next_interval_early (H last now : Q) :
  (now - last < H)%Q → next_interval H last now = (now - last)%Q.
Proof.
  intros Hearly. unfold next_interval.
  destruct (Qlt_le_dec (now - last) H) as [|Hle]; [done|].
  exfalso. by apply (Qlt_not_le _ _ Hearly).
Qed.

Lemma next_interval_late (H last now : Q) :
  (H <= now - last)%Q → next_interval H last now = H.
Proof.
  intros Hlate. unfold next_interval.
  destruct (Qlt_le_dec (now - last) H) as [Hlt|]; [|done].
  exfalso. by apply (Qlt_not_le _ _ Hlt).
Qed.

(** A wake by control messages other than ['shutdown'] forwards them and
    leaves the heartbeat clock alone. *)
Lemma woken_pass messages now w a :
  "shutdown" ∉ messages →
  _announce_loop_pass (Woken messages now) (w, a) =
    (Running,
     (with_announced (λ l, l ++ messages) w,
      {| last_announce := last_announce a;
         remaining_interval :=
           next_interval (server_heartbeat_interval (self w))
             (last_announce a) now |})).
Proof.
  intros Hno. unfold _announce_loop_pass.
  by rewrite bool_decide_eq_false_2.
Qed.

End AnnounceFacts.

(** C2 fails on the code.  With a period of 10 s the loop sends a heartbeat
    at 1000 s and is woken by the control message ['hello'] at 1003 s, 3 s
    after the heartbeat: the next poll waits for those 3 s, the time elapsed,
    and not for the 7 s that remain until the next heartbeat is due. *)
Theorem announce_waits_elapsed_time :
  let w := fresh_world example_server in
  let polls := [TimedOut 1000 1002; Woken ["hello"] 1003] in
  let H := server_heartbeat_interval (self w) in
  ∃ w' a',
    _announce_loop polls w = (Running, (w', a')) ∧
    announced w' = ["ping"; "hello"] ∧
    last_announce a' = 1000%Q ∧
    (1003 - last_announce a' < H)%Q ∧
    (remaining_interval a' == 1003 - last_announce a')%Q ∧
    (poll_timeout a' == 3000)%Q ∧
    ¬ (remaining_interval a' == H - (1003 - last_announce a'))%Q.
Proof.
  intros w polls H.
  exists (_announce_loop polls w).2.1, (_announce_loop polls w).2.2.
  split_and!; try by vm_compute.
Qed.

(** ** The start-up rendezvous *)

Module StartupFacts.
Import Startup.

Lemma count_app l xs ys : count l (xs ++ ys) = count l xs + count l ys.
Proof. induction xs as [|x xs IH]; simpl; [done|]. rewrite IH. lia. Qed.

Lemma length_count xs :
  length xs = count Dispatch xs + count Receive xs + count Announce xs.
Proof.
  induction xs as [|x xs IH]; simpl; [done|].
  rewrite IH. destruct x; simpl; lia.
Qed.

Lemma invariant_init : invariant init.
Proof.
  split; simpl; try done.
  - by intros [].
  - by intros [].
  - by intros [].
  - by intros [].
  - split; [by intros ?%elem_of_nil | done].
Qed.

Ltac instantiate_loops H :=
  pose proof (H Dispatch); pose proof (H Receive); pose proof (H Announce);
  clear H.

Lemma count_remove_one l l' xs :
  l ∈ xs →
  count l' (remove_one l xs) + (if decide (l' = l) then 1 else 0) =
    count l' xs.
Proof.
  induction xs as [|x xs IH]; [by intros ?%elem_of_nil|].
  intros Hin. simpl. destruct (decide (l = x)) as [->|Hne].
  - lia.
  - apply elem_of_cons in Hin as [|Hin]; [done|].
    simpl. specialize (IH Hin). lia.
Qed.

Lemma invariant_step a s s' : step a s = Some s' → invariant s → invariant s'.
Proof.
  intros Hstep [Hacks Hrecv Hstart Hpublic Hcontrol Hrdv].
  destruct s as [m dp rp ap bd fl rdv rcv].
  unfold acked in Hacks. simpl in *.
  destruct a as [|l|l|l]; simpl in Hstep.
  - unfold step_main, start_thread, recv_ack in Hstep; simpl in Hstep.
    instantiate_loops Hstart.
    destruct m; simpl in *;
      try (destruct rdv as [|l0 rdv]; [done|]);
      simplify_eq; simpl in *;
      (split; unfold acked; simpl;
       [ intros l; specialize (Hacks l); rewrite ?count_app; simpl in *;
         destruct l; simpl in *; try rewrite ?H, ?H0, ?H1 in * by done;
         try destruct l0; simpl in *; lia
       | rewrite ?length_app; simpl; lia
       | intros []; simpl; try done; auto
       | intros l Hl; specialize (Hpublic l); destruct l; simpl in *;
         try rewrite ?H, ?H0, ?H1 in * by done; try done;
         rewrite ?list_elem_of_filter, ?elem_of_cons; auto
       | intros l Hl; specialize (Hcontrol l); destruct l; simpl in *;
         try rewrite ?H, ?H0, ?H1 in * by done; try done;
         rewrite ?list_elem_of_filter, ?elem_of_cons; auto
       | rewrite ?list_elem_of_filter, ?elem_of_cons; simpl in *;
         intuition congruence ]).
  - unfold step_loop in Hstep.
    destruct l; simpl in *.
    all: match type of Hstep with
         | match ?p with _ => _ end = _ => destruct p eqn:Hpc
         end; try done.
    all: try case_decide; simplify_eq; simpl in *.
    all: split; unfold acked; simpl;
       [ intros l; specialize (Hacks l); rewrite ?count_app; simpl in *;
         destruct l; simpl in *; lia
       | lia
       | intros l Hl; specialize (Hstart l Hl); destruct l; simpl in *;
         congruence
       | intros l Hl; specialize (Hpublic l); destruct l; simpl in *;
         rewrite ?elem_of_cons; auto
       | intros l Hl; specialize (Hcontrol l); destruct l; simpl in *;
         rewrite ?elem_of_cons; auto
       | rewrite ?elem_of_cons; intuition congruence ].
  - unfold bind_fails in Hstep.
    destruct l; simpl in *.
    all: match type of Hstep with
         | match ?p with _ => _ end = _ => destruct p eqn:Hpc
         end; try done.
    all: simplify_eq; simpl in *.
    all: split; unfold acked; simpl;
       [ intros l; specialize (Hacks l); destruct l; simpl in *; lia
       | lia
       | intros l Hl; specialize (Hstart l Hl); destruct l; simpl in *;
         congruence
       | intros l Hl; specialize (Hpublic l); destruct l; simpl in *; auto
       | intros l Hl; specialize (Hcontrol l); destruct l; simpl in *; auto
       | done ].
  - unfold deliver in Hstep. simpl in Hstep.
    case_decide as Hin; simplify_eq.
    split; unfold acked; simpl; try done.
    intros l'. specialize (Hacks l').
    pose proof (count_remove_one l l' fl Hin) as Hone. rewrite count_app.
    destruct l'; simpl in *; lia.
Qed.

Lemma reachable_invariant s : reachable s → invariant s.
Proof.
  revert s. apply rtc_ind_r; [apply invariant_init|].
  intros s1 s2 _ [a Hstep] IH. by apply (invariant_step a s1).
Qed.

Lemma run_schedule_steps sched s s' :
  run_schedule sched s = Some s' → rtc steps s s'.
Proof.
  revert s. induction sched as [|a sched IH]; simpl; intros s.
  - intros [= <-]. apply rtc_refl.
  - destruct (step a s) as [s1|] eqn:Hstep; [|done].
    intros Hrun. apply rtc_l with s1; [by exists a | by apply IH].
Qed.

End StartupFacts.

Section startup.
Import Startup StartupFacts.

(** C6. In every execution, when [startup()] has returned it has completed
    exactly three receives on the rendezvous socket, one acknowledgment from
    each loop; each of the three loops had bound its public and its control
    endpoint before it acknowledged and is now polling; no acknowledgment
    is left over, and the rendezvous socket is closed. *)
Theorem startup_waits_for_three_acknowledgments (s : state) :
  reachable s →
  main s = MReturned →
  (∀ l, pc_of l s = Polling ∧ Public l ∈ bound s ∧ Control l ∈ bound s ∧
        count l (received s) = 1) ∧
  length (received s) = 3 ∧
  in_flight s = [] ∧
  rendezvous s = [] ∧
  StartupCtl ∉ bound s.
Proof.
  intros [Hacks Hrecv _ Hpublic Hcontrol Hrdv]%reachable_invariant Hmain.
  rewrite Hmain in Hrecv, Hrdv. simpl in *.
  pose proof (length_count (in_flight s)) as Hf.
  pose proof (length_count (rendezvous s)) as Hq.
  pose proof (length_count (received s)) as Hr.
  pose proof (Hacks Dispatch) as HD.
  pose proof (Hacks Receive) as HR.
  pose proof (Hacks Announce) as HA.
  assert (∀ l, acked l s ≤ 1) as Hle
    by (intros l; unfold acked; destruct (pc_of l s); lia).
  pose proof (Hle Dispatch). pose proof (Hle Receive).
  pose proof (Hle Announce).
  assert (length (in_flight s) = 0) as Hnone by lia.
  assert (length (rendezvous s) = 0) as Hempty by lia.
  assert (∀ l, acked l s = 1) as Hall by (intros []; lia).
  assert (∀ l, pc_of l s = Polling) as Hpolling.
  { intros l. specialize (Hall l). unfold acked in Hall.
    by destruct (pc_of l s). }
  split_and!.
  - intros l. split_and!.
    + done.
    + apply Hpublic. by rewrite Hpolling.
    + apply Hcontrol. by rewrite Hpolling.
    + specialize (Hacks l). rewrite Hall in Hacks.
      destruct (in_flight s); [|discriminate].
      destruct (rendezvous s); [done|discriminate].
  - done.
  - by destruct (in_flight s).
  - by destruct (rendezvous s).
  - intros Hin. by apply Hrdv in Hin.
Qed.

End startup.

(** ** The claims at concrete inputs *)

Section examples.
Import Worker Startup.

(** A worker that has computed [add(2, 3)] for server 7 stops when a task of
    server 8 arrives. *)
Lemma worker_second_server_is_fatal_example :
  ∃ w',
    run_pass sample_invoke (task_from 8 2 "add" 1 1)
      (run sample_invoke [task_from 7 1 "add" 2 3] start).2 =
      (Raised ValueError, w') ∧
    task_socket_open w' = false ∧
    result_socket_open w' = false ∧
    invoked w' = [(PyFunc "add", PyTuple [PyInt 2; PyInt 3], PyDict ∅)] ∧
    result_sent w' = [PyTuple [PyUUID 7; PyUUID 1; PyStr "result"; PyInt 5]].
Proof.
  destruct (worker_second_server_is_fatal sample_invoke [] [] []
              (task_from 7 1 "add" 2 3) (task_from 8 2 "add" 1 1) 7 8
              (PyUUID 1) (PyFunc "add") (PyTuple [PyInt 2; PyInt 3])
              (PyDict ∅)
              (PyUUID 2) (PyFunc "add") (PyTuple [PyInt 1; PyInt 1])
              (PyDict ∅)
              (run sample_invoke [task_from 7 1 "add" 2 3] start).2
              eq_refl eq_refl)
    as (w' & Hpass & _ & Ht & Hr & Hcalls & Hsent).
  - discriminate.
  - reflexivity.
  - exists w'. rewrite Hcalls, Hsent. repeat split; assumption.
Defined.



(** A task message of seven elements is handled like its first five. *)
Lemma worker_ignores_extra_elements_example :
  let long :=
    PyTuple [PyUUID 7; PyUUID 1; PyFunc "add"; PyTuple [PyInt 2; PyInt 3];
             PyDict ∅; PyStr "extra"; PyInt 42] in
  run_pass sample_invoke long start =
    run_pass sample_invoke (task_from 7 1 "add" 2 3) start.
Proof.
  intros long.
  destruct (worker_ignores_extra_elements sample_invoke long
              [PyUUID 7; PyUUID 1; PyFunc "add"; PyTuple [PyInt 2; PyInt 3];
               PyDict ∅; PyStr "extra"; PyInt 42] start eq_refl)
    as [_ Hlong].
  destruct Hlong as (a & b & c & d & e & Htake & _ & Hpass).
  - simpl. lia.
  - injection Htake as <- <- <- <- <-. exact Hpass.
Defined.

(** C8 as stated fails: the integer [7] is a result message that does not
    unpack into four elements, and it is fatal to the receive loop.  The
    unpacking raises [TypeError], which [except ValueError] does not catch:
    nothing is logged, the exception leaves the loop, and the [finally]
    clause closes its sockets.  The worker loop ends in the same way on the
    task message [7]. *)
Lemma non_iterable_message_is_fatal :
  py_iter (PyInt 7) = None ∧
  _receive_loop_pass None (Some (PyInt 7)) one_pending =
    (Raised TypeError, close_sockets receive_sockets one_pending) ∧
  Server.log_error (close_sockets receive_sockets one_pending) =
    Server.log_error one_pending ∧
  run_pass sample_invoke (PyInt 7) start = (Raised TypeError, close_both start).
Proof. split_and!; reflexivity. Qed.

(** A result of three elements and a task of two are dropped. *)
Lemma malformed_messages_are_dropped_example :
  (∃ sw',
     _receive_loop_pass None
       (Some (PyTuple [PyUUID 1; PyUUID 100; PyStr "result"])) one_pending =
       (Running, sw') ∧
     self sw' = self one_pending ∧ heap sw' = heap one_pending) ∧
  (∃ ww',
     run_pass sample_invoke (PyTuple [PyUUID 7; PyUUID 1]) start =
       (Running, ww') ∧
     result_sent ww' = [] ∧ invoked ww' = []).
Proof.
  destruct (malformed_messages_are_dropped sample_invoke None
              (PyTuple [PyUUID 1; PyUUID 100; PyStr "result"])
              [PyUUID 1; PyUUID 100; PyStr "result"] one_pending
              (PyTuple [PyUUID 7; PyUUID 1]) [PyUUID 7; PyUUID 1] start)
    as [(sw' & Hs & _ & Hself & Hheap & _) (ww' & Hw & _ & _ & Hsent & Hcalls & _)].
  - reflexivity.
  - reflexivity.
  - simpl. lia.
  - reflexivity.
  - simpl. lia.
  - split; [exists sw' | exists ww']; repeat split; assumption.
Defined.

(** The result [(UUID 1, UUID 100, 'partial', 5)] for the pending task
    UUID 100 empties the registry and leaves the future pending. *)
Lemma unknown_result_type_discards_future_example :
  ∃ w',
    _receive_loop_pass None
      (Some (PyTuple [PyUUID 1; PyUUID 100; PyStr "partial"; PyInt 5]))
      one_pending = (Running, w') ∧
    pending_futures (self w') = delete (PyUUID 100) (pending_futures (self one_pending)) ∧
    heap w' = [new_future (PyUUID 100)].
Proof.
  destruct (unknown_result_type_discards_future None
              (PyTuple [PyUUID 1; PyUUID 100; PyStr "partial"; PyInt 5])
              (PyUUID 1) (PyUUID 100) (PyStr "partial") (PyInt 5) 0
              one_pending)
    as (w' & Hpass & Hreg & _ & Hheap & _).
  - apply ReceiveFacts.registry_ok_submit, ReceiveFacts.registry_ok_fresh.
    reflexivity.
  - reflexivity.
  - reflexivity.
  - vm_compute. reflexivity.
  - discriminate.
  - discriminate.
  - exists w'. repeat split; assumption.
Defined.

(** [shutdown()] on a fresh coordinator. *)
Lemma shutdown_is_idempotent_example :
  let w := fresh_world example_server in
  sent_to (_announce_endpoint example_server) (shutdown w) = ["shutdown"] ∧
  shutdown (shutdown w) = shutdown w.
Proof.
  intros w.
  destruct (shutdown_is_idempotent w) as (Hone & _ & _ & Hidem).
  - apply ShutdownFacts.init_control_endpoints_distinct.
  - reflexivity.
  - split; [|exact (Hidem 1)].
    apply (Hone (_announce_endpoint example_server)).
    unfold control_endpoints. rewrite !elem_of_cons. auto.
Defined.

(** [startup()] returns at the end of the interleaved schedule. *)
Lemma startup_waits_for_three_acknowledgments_example :
  ∃ s,
    run_schedule interleaved_schedule init = Some s ∧
    main s = MReturned ∧
    received s = [Announce; Dispatch; Receive] ∧
    (∀ l, pc_of l s = Polling ∧ Public l ∈ bound s ∧ Control l ∈ bound s ∧
          count l (received s) = 1).
Proof.
  destruct (run_schedule interleaved_schedule init) as [s|] eqn:Hrun;
    [|discriminate].
  exists s. split; [reflexivity|].
  assert (main s = MReturned) as Hmain
    by (vm_compute in Hrun; injection Hrun as <-; reflexivity).
  destruct (startup_waits_for_three_acknowledgments s) as (Hloops & _).
  - exact (StartupFacts.run_schedule_steps interleaved_schedule init s Hrun).
  - exact Hmain.
  - split; [exact Hmain|]. split; [|exact Hloops].
    vm_compute in Hrun. injection Hrun as <-. reflexivity.
Defined.

End examples.

(** * Further properties of the code *)

#[local] Set Warnings "-clear-no-such-hyp".

(** ** [recvall] *)

Module BaseFacts.
Import Base.

Lemma recvall_loop_arrivals msgs rest acc :
  recvall_loop ((Arrives <$> msgs) ++ rest) acc =
    recvall_loop rest (acc ++ msgs).
Proof.
  revert acc. induction msgs as [|m msgs IH]; intros acc; simpl.
  - by rewrite app_nil_r.
  - rewrite IH. by rewrite <- app_assoc.
Qed.

Lemma made_endpoint_decodes socket_path :
  String.prefix "ipc://" ("ipc://" +:+ socket_path) = true ∧
  py_slice_from 6 ("ipc://" +:+ socket_path) = socket_path.
Proof. split; [by destruct socket_path | done]. Qed.

Lemma make_ipc_endpoints_registry paths st :
  _ipc_endpoints (make_ipc_endpoints paths st) =
    _ipc_endpoints st ++ ((λ p, "ipc://" +:+ p) <$> paths) ∧
  files (make_ipc_endpoints paths st) = list_to_set paths ∪ files st ∧
  log_debug (make_ipc_endpoints paths st) = log_debug st.
Proof.
  revert st. induction paths as [|p paths IH]; intros st.
  - simpl. rewrite app_nil_r. split_and!; [done| |done]. set_solver.
  - change (make_ipc_endpoints (p :: paths) st)
      with (make_ipc_endpoints paths (make_ipc_endpoint p st).2).
    destruct (IH (make_ipc_endpoint p st).2) as (-> & -> & ->). simpl.
    rewrite <- app_assoc. split_and!; [done| |done]. set_solver.
Qed.

(** The loop over endpoints that [make_ipc_endpoint] made, newest first:
    it never fails, and takes every path out of the files. *)
Lemma remove_loop_made paths fs log :
  ∃ log',
    remove_loop ((λ p, "ipc://" +:+ p) <$> paths) fs log =
      (Removed, [], fs ∖ list_to_set paths, log') ∧
    length log' = length log + length paths.
Proof.
  revert fs log. induction paths as [|p paths IH]; intros fs log.
  - exists log. simpl. split; [|lia]. do 2 f_equal. set_solver.
  - cbn [fmap list_fmap remove_loop].
    destruct (made_endpoint_decodes p) as [-> ->].
    unfold os_unlink. case_decide as Hin.
    + destruct (IH (fs ∖ {[p]}) (log ++ [Unlinked p])) as (log' & -> & Hlen).
      exists log'. split.
      * do 2 f_equal. set_solver.
      * rewrite Hlen, length_app. simpl. lia.
    + destruct (IH fs (log ++ [CouldNotUnlink p])) as (log' & -> & Hlen).
      exists log'. split.
      * do 2 f_equal. set_solver.
      * rewrite Hlen, length_app. simpl. lia.
Qed.

(** The same when every file is still there: each is unlinked. *)
Lemma remove_loop_present paths fs log :
  NoDup paths → (∀ p, p ∈ paths → p ∈ fs) →
  remove_loop ((λ p, "ipc://" +:+ p) <$> paths) fs log =
    (Removed, [], fs ∖ list_to_set paths, log ++ (Unlinked <$> paths)).
Proof.
  revert fs log. induction paths as [|p paths IH]; intros fs log Hnd Hin.
  - simpl. rewrite app_nil_r. do 2 f_equal. set_solver.
  - cbn [fmap list_fmap remove_loop].
    destruct (made_endpoint_decodes p) as [-> ->].
    apply NoDup_cons in Hnd as [Hp Hnd].
    unfold os_unlink. rewrite decide_True by (apply Hin; set_solver).
    rewrite IH; [|done|].
    + rewrite <- app_assoc. simpl. do 2 f_equal. set_solver.
    + intros q Hq. apply elem_of_difference. split; [apply Hin; set_solver|].
      intros ->%elem_of_singleton. done.
Qed.

Lemma format_x_decodes n : HexString.Raw.to_N (format_x n) 0 = n.
Proof. destruct n as [|p]; [done|]. apply HexString.Raw.to_N_of_pos. Qed.

Lemma format_x_inj a b : format_x a = format_x b → a = b.
Proof.
  intros Heq. rewrite <- (format_x_decodes a), <- (format_x_decodes b).
  by rewrite Heq.
Qed.

End BaseFacts.

(** X1. [recvall] returns the messages that have arrived, all of them and in
    the order of their arrival, up to the moment the socket has nothing more
    to give; what arrives after that moment is left for the next call. *)
Theorem recvall_returns_what_arrived (msgs : list string)
    (later : list Base.recv_event) :
  Base.recvall (Base.Arrives <$> msgs) = (inr msgs, []) ∧
  Base.recvall ((Base.Arrives <$> msgs) ++ Base.Fails Base.EAGAIN :: later) =
    (inr msgs, later).
Proof.
  unfold Base.recvall. split.
  - rewrite <- (app_nil_r (Base.Arrives <$> msgs)).
    by rewrite BaseFacts.recvall_loop_arrivals.
  - by rewrite BaseFacts.recvall_loop_arrivals.
Qed.

(** X2. A [ZMQError] other than [EAGAIN] is raised again by [recvall]: the
    caller gets the error and none of the messages that were received before
    it; what arrives later is left in the socket. *)
Theorem recvall_raises_other_errors (msgs : list string)
    (errno : Base.zmq_errno) (later : list Base.recv_event) :
  errno ≠ Base.EAGAIN →
  Base.recvall ((Base.Arrives <$> msgs) ++ Base.Fails errno :: later) =
    (inl errno, later).
Proof.
  intros Herr. unfold Base.recvall.
  rewrite BaseFacts.recvall_loop_arrivals. simpl.
  by rewrite decide_False.
Qed.

(** ** The IPC endpoints *)

(** X3. The endpoint that [make_ipc_endpoint] returns is the last entry of
    the registry and names a file that exists; [remove_ipc_endpoints] reads
    it back: its assertion on the prefix holds, and the slice [endpoint[6:]]
    is the path of the file. *)
Theorem ipc_endpoint_round_trip (socket_path : string) (st : Base.ipc_state) :
  let '(endpoint, st') := Base.make_ipc_endpoint socket_path st in
  String.prefix "ipc://" endpoint = true ∧
  Base.py_slice_from 6 endpoint = socket_path ∧
  last (Base._ipc_endpoints st') = Some endpoint ∧
  socket_path ∈ Base.files st'.
Proof.
  simpl. destruct (BaseFacts.made_endpoint_decodes socket_path) as [H1 H2].
  split_and!; [exact H1|exact H2|by rewrite last_snoc|set_solver].
Qed.

(** X4. Whatever became of the files in the meantime, [remove_ipc_endpoints]
    on a registry that [make_ipc_endpoint] filled never raises: a file that
    is gone costs a line in the log and no more.  It leaves the registry
    empty, none of the registered paths among the files, and every other
    file alone. *)
Theorem remove_ipc_endpoints_cleans_up (paths : list string)
    (st : Base.ipc_state) (fs : gset string) :
  Base._ipc_endpoints st = [] →
  let made := Base.make_ipc_endpoints paths st in
  let at_exit :=
    Base.mkIpc (Base._ipc_endpoints made) fs (Base.log_debug made) in
  ∃ st',
    Base.remove_ipc_endpoints at_exit = (Base.Removed, st') ∧
    Base._ipc_endpoints st' = [] ∧
    Base.files st' = fs ∖ list_to_set paths ∧
    length (Base.log_debug st') =
      length (Base.log_debug st) + length paths.
Proof.
  intros Hempty made at_exit.
  destruct (BaseFacts.make_ipc_endpoints_registry paths st)
    as (Hreg & _ & Hlog).
  fold made in Hreg, Hlog. rewrite Hempty in Hreg. simpl in Hreg.
  unfold Base.remove_ipc_endpoints, at_exit. simpl.
  rewrite Hreg, Hlog, <- fmap_reverse.
  destruct (BaseFacts.remove_loop_made (reverse paths) fs (Base.log_debug st))
    as (log' & -> & Hlen).
  eexists. split; [done|]. simpl. split_and!; [done| |].
  - f_equal. set_solver.
  - rewrite Hlen. by rewrite length_reverse.
Qed.

(** X5. Files made by [make_ipc_endpoint] (each path new, as [mkstemp]
    makes it) and left alone are all unlinked by [remove_ipc_endpoints], the
    newest first: the files are again the ones from before the endpoints
    were made. *)
Theorem remove_ipc_endpoints_undoes_make (paths : list string)
    (st : Base.ipc_state) :
  Base._ipc_endpoints st = [] →
  NoDup paths →
  (∀ p, p ∈ paths → p ∉ Base.files st) →
  Base.remove_ipc_endpoints (Base.make_ipc_endpoints paths st) =
    (Base.Removed,
     Base.mkIpc [] (Base.files st)
       (Base.log_debug st ++ (Base.Unlinked <$> reverse paths))).
Proof.
  intros Hempty Hnd Hfresh.
  destruct (BaseFacts.make_ipc_endpoints_registry paths st)
    as (Hreg & Hfiles & Hlog).
  rewrite Hempty in Hreg. simpl in Hreg.
  unfold Base.remove_ipc_endpoints.
  rewrite Hreg, Hfiles, Hlog, <- fmap_reverse.
  rewrite BaseFacts.remove_loop_present.
  - simpl. do 2 f_equal. set_solver.
  - by rewrite reverse_Permutation.
  - intros p Hp%elem_of_reverse. set_solver.
Qed.

(** X6. An entry of the registry that does not start with [ipc://] stops
    [remove_ipc_endpoints] with an [AssertionError]: the endpoints registered
    after it are cleaned up, the entry itself is dropped from the registry,
    and the endpoints registered before it stay, with their files. *)
Theorem remove_ipc_endpoints_assertion (older newer : list string)
    (bad : string) (fs : gset string) (log : list Base.debug_line) :
  String.prefix "ipc://" bad = false →
  ∃ st',
    Base.remove_ipc_endpoints
      (Base.mkIpc (older ++ bad :: ((λ p, "ipc://" +:+ p) <$> newer)) fs log) =
      (Base.AssertionError, st') ∧
    Base._ipc_endpoints st' = older ∧
    Base.files st' = fs ∖ list_to_set newer.
Proof.
  intros Hbad. unfold Base.remove_ipc_endpoints. simpl.
  rewrite reverse_app, reverse_cons, <- fmap_reverse, <- app_assoc. simpl.
  assert (∀ paths fs log,
            ∃ log',
              Base.remove_loop
                (((λ p, "ipc://" +:+ p) <$> paths) ++ bad :: reverse older)
                fs log =
                (Base.AssertionError, reverse older,
                 fs ∖ list_to_set paths, log')) as Hloop.
  { clear fs log. induction paths as [|p paths IH]; intros fs log.
    - exists log. simpl. rewrite Hbad. do 2 f_equal. set_solver.
    - cbn [fmap list_fmap app Base.remove_loop].
      destruct (BaseFacts.made_endpoint_decodes p) as [-> ->].
      unfold Base.os_unlink. case_decide.
      + destruct (IH (fs ∖ {[p]}) (log ++ [Base.Unlinked p])) as (log' & ->).
        exists log'. do 2 f_equal. set_solver.
      + destruct (IH fs (log ++ [Base.CouldNotUnlink p])) as (log' & ->).
        exists log'. do 2 f_equal. set_solver. }
  destruct (Hloop (reverse newer) fs log) as (log' & ->).
  eexists. split; [done|]. simpl. split.
  - by rewrite reverse_involutive.
  - f_equal. set_solver.
Qed.

(** ** The endpoints of a coordinator *)

(** X7. The four [inproc://] endpoints that [__init__] gives a coordinator
    differ from each other, and two coordinators with different [id(self)]
    have no endpoint in common. *)
Theorem inproc_endpoints_never_clash (id1 id2 uuid1 uuid2 : N)
    (t1 r1 a1 t2 r2 a2 : string) :
  let e1 := Streams.inproc_endpoints (__init__ id1 uuid1 t1 r1 a1) in
  let e2 := Streams.inproc_endpoints (__init__ id2 uuid2 t2 r2 a2) in
  NoDup e1 ∧ (id1 ≠ id2 → ∀ ep, ep ∈ e1 → ep ∉ e2).
Proof.
  intros e1 e2. split.
  - unfold e1, Streams.inproc_endpoints. simpl.
    repeat (apply NoDup_cons; split); [ | | | |apply NoDup_nil_2];
      rewrite ?elem_of_cons, ?elem_of_nil; intros H;
      repeat (destruct H as [H|H]); try done; simplify_eq.
  - intros Hne ep. unfold e1, e2, Streams.inproc_endpoints. simpl.
    rewrite !elem_of_cons, !elem_of_nil. intros H1 H2. apply Hne.
    repeat (destruct H1 as [H1|H1]); try done;
      repeat (destruct H2 as [H2|H2]); try done;
      subst ep; simplify_eq; by apply BaseFacts.format_x_inj.
Qed.

(** ** Submission *)

Module SubmitFacts.
Import Streams.

Lemma make_append_task_fields tid fn args kwargs w :
  let w' := (_make_append_task tid fn args kwargs w).2 in
  (_make_append_task tid fn args kwargs w).1 = length (heap w) ∧
  heap w' = heap w ++ [new_future tid] ∧
  pending_futures (self w') = <[tid := length (heap w)]> (pending_futures (self w)) ∧
  inproc w' = inproc w ∧
  _dispatch_thread_ctl_endpoint (self w') =
    _dispatch_thread_ctl_endpoint (self w).
Proof. done. Qed.

(** [_make_append_task] neither reads nor writes the inproc transport. *)
Lemma make_append_tasks_inproc f tasks w :
  make_append_tasks tasks (with_inproc f w) =
    ((make_append_tasks tasks w).1,
     with_inproc f (make_append_tasks tasks w).2).
Proof.
  revert w. induction tasks as [|[tid [[fn args] kwargs]] tasks IH]; intros w.
  - done.
  - cbn [make_append_tasks].
    change (_make_append_task tid fn args kwargs (with_inproc f w))
      with ((_make_append_task tid fn args kwargs w).1,
            with_inproc f (_make_append_task tid fn args kwargs w).2).
    destruct (_make_append_task tid fn args kwargs w) as [ft w1]. simpl.
    rewrite IH. by destruct (make_append_tasks tasks w1).
Qed.

Lemma make_append_tasks_endpoint tasks w :
  _dispatch_thread_ctl_endpoint (self (make_append_tasks tasks w).2) =
    _dispatch_thread_ctl_endpoint (self w).
Proof.
  revert w. induction tasks as [|[tid [[fn args] kwargs]] tasks IH]; intros w.
  - done.
  - cbn [make_append_tasks].
    destruct (_make_append_task tid fn args kwargs w) as [ft w1] eqn:H1.
    specialize (IH w1). destruct (make_append_tasks tasks w1) as [fts w2].
    simpl in *. rewrite IH.
    by replace w1 with (_make_append_task tid fn args kwargs w).2
      by (by rewrite H1).
Qed.

Lemma wake_signal ep n w :
  _signal_thread ep "" (wake ep n w) = wake ep (S n) w.
Proof.
  unfold _signal_thread, wake, with_inproc. simpl. f_equal.
  rewrite lookup_insert_eq. simpl. rewrite insert_insert_eq.
  f_equal. rewrite <- app_assoc. f_equal.
  change [""] with (replicate 1 ""). rewrite <- replicate_add.
  by rewrite Nat.add_1_r.
Qed.

Lemma submit_each_wake tasks w n :
  Streams.submit_each tasks
    (wake (_dispatch_thread_ctl_endpoint (self w)) n w) =
    wake (_dispatch_thread_ctl_endpoint (self w)) (n + length tasks)
      (make_append_tasks tasks w).2.
Proof.
  revert w n. induction tasks as [|[tid [[fn args] kwargs]] tasks IH];
    intros w n.
  - simpl. by rewrite Nat.add_0_r.
  - cbn [Streams.submit_each foldl make_append_tasks length].
    set (ep := _dispatch_thread_ctl_endpoint (self w)).
    set (w1 := (_make_append_task tid fn args kwargs w).2).
    change (submit tid fn args kwargs (wake ep n w)).2
      with (_signal_thread ep "" (wake ep n w1)).
    rewrite wake_signal.
    change ep with (_dispatch_thread_ctl_endpoint (self w1)).
    change (foldl _ ?x tasks) with (Streams.submit_each tasks x).
    rewrite IH.
    change (_make_append_task tid fn args kwargs w)
      with ((_make_append_task tid fn args kwargs w).1, w1).
    cbn iota. destruct (make_append_tasks tasks w1) as [fts w2]. simpl.
    f_equal. lia.
Qed.

End SubmitFacts.

(** X8. Submitting tasks whose futures have pairwise different task ids
    creates one new pending future for each, in the order of the tasks:
    [submit_many] returns references to them, each is registered under its
    own task id, and the entries of the registry under other task ids are
    as before. *)
Theorem submissions_get_their_own_futures
    (tasks : list (pyobj * (pyobj * pyobj * pyobj))) (w : world) :
  NoDup tasks.*1 →
  let futures := (submit_many tasks w).1 in
  let w' := (submit_many tasks w).2 in
  futures = seq (length (heap w)) (length tasks) ∧
  heap w' = heap w ++ (new_future <$> tasks.*1) ∧
  (∀ i tid call, tasks !! i = Some (tid, call) →
     pending_futures (self w') !! tid = Some (length (heap w) + i)) ∧
  (∀ tid, tid ∉ tasks.*1 →
     pending_futures (self w') !! tid = pending_futures (self w) !! tid).
Proof.
  intros Hnd. unfold submit_many.
  assert (∀ w,
    (make_append_tasks tasks w).1 = seq (length (heap w)) (length tasks) ∧
    heap (make_append_tasks tasks w).2 = heap w ++ (new_future <$> tasks.*1) ∧
    (∀ i tid call, tasks !! i = Some (tid, call) →
       pending_futures (self (make_append_tasks tasks w).2) !! tid =
         Some (length (heap w) + i)) ∧
    (∀ tid, tid ∉ tasks.*1 →
       pending_futures (self (make_append_tasks tasks w).2) !! tid =
         pending_futures (self w) !! tid)) as Hall.
  { clear w. induction tasks as [|[tid [[fn args] kwargs]] tasks IH]; intros w.
    - simpl. rewrite app_nil_r. split_and!; try done.
    - apply NoDup_cons in Hnd as [Hfresh Hnd]. specialize (IH Hnd).
      cbn [make_append_tasks].
      destruct (SubmitFacts.make_append_task_fields tid fn args kwargs w)
        as (Hft & Hheap & Hreg & _).
      destruct (_make_append_task tid fn args kwargs w) as [ft w1].
      simpl in Hft, Hheap, Hreg. subst ft.
      destruct (IH w1) as (Hfts & Hheap' & Hnew & Hold).
      destruct (make_append_tasks tasks w1) as [fts w2]. simpl in *.
      rewrite Hheap, length_app in *. simpl in *.
      split_and!.
      + rewrite Hfts. f_equal. f_equal. lia.
      + rewrite Hheap', <- app_assoc. done.
      + intros [|i] tid' call Hi; simpl in Hi.
        * injection Hi as <- <-. rewrite Hold by done.
          rewrite Hreg, lookup_insert_eq. f_equal. lia.
        * rewrite (Hnew i tid' call Hi). f_equal. lia.
      + intros tid' Hout. apply not_elem_of_cons in Hout as [Hne Hout].
        rewrite Hold by done. rewrite Hreg. by rewrite lookup_insert_ne. }
  destruct (Hall w) as (H1 & H2 & H3 & H4).
  destruct (make_append_tasks tasks w) as [fts w1]. simpl in *.
  done.
Qed.

(** X9. [submit_many] does to the queue, the registry and the futures what
    one [submit] per task does, and returns the futures in the order of
    the tasks; it differs in waking the dispatch loop once for all tasks
    (also when there is no task) where the [submit]s wake it once per
    task. *)
Theorem submit_many_is_submit_each
    (tasks : list (pyobj * (pyobj * pyobj * pyobj))) (w : world) :
  let ep := _dispatch_thread_ctl_endpoint (self w) in
  let many := (submit_many tasks w).2 in
  let each := Streams.submit_each tasks w in
  self many = self each ∧
  heap many = heap each ∧
  task_sent many = task_sent each ∧
  sent_to ep many = sent_to ep w ++ [""] ∧
  sent_to ep each = sent_to ep w ++ replicate (length tasks) "".
Proof.
  intros ep many each.
  assert (each = Streams.wake ep (length tasks) (make_append_tasks tasks w).2
          ∨ (tasks = [] ∧ each = w)) as Heach.
  { destruct tasks as [|t tasks]; [by right|left].
    unfold each. destruct t as [tid [[fn args] kwargs]].
    cbn [Streams.submit_each foldl].
    change (foldl _ ?x tasks) with (Streams.submit_each tasks x).
    set (w1 := (_make_append_task tid fn args kwargs w).2).
    change (submit tid fn args kwargs w).2 with (_signal_thread ep "" w1).
    assert (_signal_thread ep "" w1 = Streams.wake ep 1 w1) as ->.
    { unfold _signal_thread, Streams.wake. done. }
    change ep with (_dispatch_thread_ctl_endpoint (self w1)).
    rewrite SubmitFacts.submit_each_wake.
    cbn [make_append_tasks length].
    change (_make_append_task tid fn args kwargs w)
      with ((_make_append_task tid fn args kwargs w).1, w1).
    cbn iota. destruct (make_append_tasks tasks w1) as [fts w2]. done. }
  assert (many =
            _signal_thread
              (_dispatch_thread_ctl_endpoint (self (make_append_tasks tasks w).2))
              "" (make_append_tasks tasks w).2) as Hmany.
  { unfold many, submit_many.
    by destruct (make_append_tasks tasks w) as [fts w1]. }
  rewrite SubmitFacts.make_append_tasks_endpoint in Hmany. fold ep in Hmany.
  assert (inproc (make_append_tasks tasks w).2 = inproc w) as Hnet.
  { clear. revert w.
    induction tasks as [|[tid [[fn args] kwargs]] tasks IH]; intros w; [done|].
    cbn [make_append_tasks].
    change (_make_append_task tid fn args kwargs w)
      with ((_make_append_task tid fn args kwargs w).1,
            (_make_append_task tid fn args kwargs w).2).
    cbn iota. specialize (IH (_make_append_task tid fn args kwargs w).2).
    destruct (make_append_tasks tasks _) as [fts w2]. simpl in *.
    by rewrite IH. }
  destruct Heach as [Heach|[-> Heach]]; rewrite Hmany, Heach.
  - unfold sent_to, _signal_thread, Streams.wake. simpl.
    rewrite !lookup_insert_eq, Hnet. done.
  - unfold sent_to, _signal_thread. simpl.
    rewrite lookup_insert_eq, app_nil_r. done.
Qed.

(** ** The dispatch loop over many passes *)

Module LoopFacts.

Lemma finally_status {A} (cleanup : A → A) (r : status * A) :
  (finally cleanup r).1 = r.1.
Proof. by destruct r as [[| |e] x]. Qed.

Lemma finally_state {A} (cleanup : A → A) (r : status * A) :
  (finally cleanup r).2 =
    match r.1 with
    | Running => r.2
    | _ => cleanup r.2
    end.
Proof. by destruct r as [[| |e] x]. Qed.

Lemma dispatch_pass_cases ctl w :
  (shutdown_requested ctl = true ∧
   _dispatch_loop_pass ctl w = (Returned, close_sockets dispatch_sockets w)) ∨
  (shutdown_requested ctl = false ∧
   _dispatch_loop_pass ctl w = (Running, drain_queue w)).
Proof.
  unfold _dispatch_loop_pass. destruct (shutdown_requested ctl); auto.
Qed.

Lemma drain_queue_fields w :
  task_sent (drain_queue w) = task_sent w ++ task_queue (self w) ∧
  task_queue (self (drain_queue w)) = [] ∧
  pending_futures (self (drain_queue w)) = pending_futures (self w) ∧
  heap (drain_queue w) = heap w ∧
  open_sockets (drain_queue w) = open_sockets w.
Proof. unfold drain_queue. by rewrite DispatchFacts.drain_spec. Qed.

(** What [shutdown] sends to the dispatch loop. *)
Lemma shutdown_reaches_dispatch w :
  _shutdown_signaled (self w) = false →
  "shutdown" ∈
    sent_to (_dispatch_thread_ctl_endpoint (self w)) (shutdown w).
Proof.
  intros Hflag. rewrite (ShutdownFacts.shutdown_unfold w Hflag).
  rewrite !ShutdownFacts.sent_to_signal. simpl.
  repeat case_decide; try done; set_solver.
Qed.

Lemma shutdown_fields w :
  task_queue (self (shutdown w)) = task_queue (self w) ∧
  pending_futures (self (shutdown w)) = pending_futures (self w) ∧
  heap (shutdown w) = heap w ∧
  task_sent (shutdown w) = task_sent w ∧
  _dispatch_thread_ctl_endpoint (self (shutdown w)) =
    _dispatch_thread_ctl_endpoint (self w).
Proof. unfold shutdown. by destruct (_shutdown_signaled (self w)). Qed.

End LoopFacts.


(** X11. A task that is still queued when the dispatch loop reads the
    ['shutdown'] of [shutdown()] is never sent: the loop looks for the
    shutdown request before it drains the queue.  Here the task is submitted
    right before [shutdown()], and the loop then reads all that was sent to
    its control endpoint. *)
Theorem task_queued_at_shutdown_is_not_sent (tid fn args kwargs : pyobj)
    (w : world) (later : list (option (list string))) :
  _shutdown_signaled (self w) = false →
  let w1 := shutdown (submit tid fn args kwargs w).2 in
  let ctl := Some (sent_to (_dispatch_thread_ctl_endpoint (self w1)) w1) in
  let r := dispatch_passes (ctl :: later) w1 in
  r.1 = Returned ∧
  task_sent r.2 = task_sent w ∧
  task_queue (self r.2) =
    task_queue (self w) ++
      [PyTuple [instance_id (self w); tid; fn; args; kwargs]] ∧
  pending_futures (self r.2) !! tid = Some (length (heap w)) ∧
  heap r.2 !! length (heap w) = Some (new_future tid).
Proof.
  intros Hflag w1 ctl r.
  set (w0 := (submit tid fn args kwargs w).2) in *.
  assert (_shutdown_signaled (self w0) = false) as Hflag0 by done.
  destruct (LoopFacts.shutdown_fields w0) as (Hq & Hp & Hh & Hs & Hep).
  fold w1 in Hq, Hp, Hh, Hs, Hep.
  assert (shutdown_requested ctl = true) as Hctl.
  { unfold ctl. simpl. apply bool_decide_eq_true. rewrite Hep.
    by apply LoopFacts.shutdown_reaches_dispatch. }
  unfold r. cbn [dispatch_passes].
  destruct (LoopFacts.dispatch_pass_cases ctl w1) as [[_ ->]|[Hno _]];
    [|congruence].
  simpl. rewrite Hs, Hq, Hp, Hh. split_and!; try done.
  - simpl. apply lookup_insert_eq.
  - simpl. by rewrite lookup_app_r, Nat.sub_diag.
Qed.

(** ** Results and futures *)

Module ResultFacts.
Import Worker.

Section worker.
Variable invoke : pyobj → pyobj → pyobj → outcome.


End worker.


(** What a result message can change. *)
Lemma receive_result_frame msg w :
  let w' := (receive_result msg w).2 in
  (∀ k r, pending_futures (self w') !! k = Some r →
          pending_futures (self w) !! k = Some r) ∧
  length (heap w') = length (heap w) ∧
  (∀ r, (∀ k, pending_futures (self w) !! k ≠ Some r) →
        heap w' !! r = heap w !! r) ∧
  (∀ r fut', heap w' !! r = Some fut' →
     ∃ fut, heap w !! r = Some fut ∧ task_id fut' = task_id fut) ∧
  task_queue (self w') = task_queue (self w) ∧
  instance_id (self w') = instance_id (self w) ∧
  task_sent w' = task_sent w ∧
  inproc w' = inproc w ∧
  announced w' = announced w ∧
  open_sockets w' = open_sockets w.
Proof.
  cbv zeta.
  assert (∀ w0 : world, ∀ f : WMFuture → WMFuture, ∀ ft : nat,
            (∀ x, task_id (f x) = task_id x) →
            ∀ r fut', alter f ft (heap w0) !! r = Some fut' →
              ∃ fut, heap w0 !! r = Some fut ∧ task_id fut' = task_id fut)
    as Halter.
  { intros w0 f ft Hf r fut'. destruct (decide (ft = r)) as [->|Hne].
    - rewrite list_lookup_alter_eq. destruct (heap w0 !! r) as [fut|]; [|done].
      simpl. intros [= <-]. eauto.
    - rewrite list_lookup_alter_ne by done. eauto. }
  unfold receive_result.
  destruct (unpack4 msg) as [[]|[[[iid tid] rt] payload]];
    try (simpl; split_and!; eauto; done).
  set (w1 := if decide (iid ≠ instance_id (self w)) then _ else w).
  assert (self w1 = self w ∧ heap w1 = heap w ∧ task_sent w1 = task_sent w ∧
          inproc w1 = inproc w ∧ announced w1 = announced w ∧
          open_sockets w1 = open_sockets w)
    as (Hself & Hheap & Hsent & Hnet & Hann & Hopen)
    by (unfold w1; destruct (decide (iid ≠ instance_id (self w))); done).
  clearbody w1. rewrite <- Hself, <- Hheap, <- Hsent, <- Hnet, <- Hann, <- Hopen.
  clear Hself Hheap Hsent Hnet Hann Hopen w.
  destruct (dict_pop tid (pending_futures (self w1))) as [ft rest| |] eqn:Hpop;
    try (simpl; split_and!; eauto; done).
  apply ReceiveFacts.dict_pop_Popped in Hpop as [Hft ->].
  assert (∀ k r, delete tid (pending_futures (self w1)) !! k = Some r →
                 pending_futures (self w1) !! k = Some r) as Hshrink
    by (by intros k r [_ ?]%lookup_delete_Some).
  repeat case_decide.
  - simpl. split_and!; try done.
    + by rewrite length_alter.
    + intros r Hout. apply list_lookup_alter_ne. intros ->. by apply (Hout tid).
    + by apply Halter.
  - unfold set_exception_star.
    destruct (py_iter payload) as [[|e [|tb [|? ?]]]|];
      try (simpl; split_and!; eauto; done).
    simpl. split_and!; try done.
    + by rewrite length_alter.
    + intros r Hout. apply list_lookup_alter_ne. intros ->. by apply (Hout tid).
    + by apply Halter.
  - simpl. split_and!; eauto.
Qed.

End ResultFacts.

Section round_trip.
Import Worker.
Variable invoke : pyobj → pyobj → pyobj → outcome.


End round_trip.

(** X13. A future is resolved once.  After a result for a pending task, a
    second result for the same task id, whatever it says and whoever sent
    it, is logged as a result for a nonexistent task and changes neither
    the future nor the registry. *)
Theorem second_result_is_ignored (iid1 iid2 tid p1 rt2 p2 : pyobj) (ft : nat)
    (w : world) :
  pending_futures (self w) !! tid = Some ft →
  hashable tid = true →
  ∃ w1 w2,
    _receive_loop_pass None (Some (PyTuple [iid1; tid; PyStr "result"; p1])) w =
      (Running, w1) ∧
    heap w1 = alter (_set_result p1) ft (heap w) ∧
    _receive_loop_pass None (Some (PyTuple [iid2; tid; rt2; p2])) w1 =
      (Running, w2) ∧
    heap w2 = heap w1 ∧
    pending_futures (self w2) = pending_futures (self w1) ∧
    last (Server.log_error w2) =
      Some "received result for nonexistent task {!s}; zombie client?".
Proof.
  intros Hft Hhash.
  assert (∃ w1, receive_result (PyTuple [iid1; tid; PyStr "result"; p1]) w =
                  (Running, w1) ∧
                heap w1 = alter (_set_result p1) ft (heap w) ∧
                pending_futures (self w1) = delete tid (pending_futures (self w)))
    as (w1 & Hfirst & Hheap & Hreg).
  { unfold receive_result. simpl.
    destruct (decide (iid1 ≠ instance_id (self w)));
      unfold dict_pop; simpl; rewrite Hft; simpl; eauto. }
  assert (∃ w2, receive_result (PyTuple [iid2; tid; rt2; p2]) w1 =
                  (Running, w2) ∧ heap w2 = heap w1 ∧ self w2 = self w1 ∧
                last (Server.log_error w2) =
                  Some "received result for nonexistent task {!s}; zombie client?")
    as (w2 & Hsecond & Hheap2 & Hself2 & Hlog).
  { unfold receive_result. simpl.
    destruct (decide (iid2 ≠ instance_id (self w1)));
      unfold dict_pop; simpl; rewrite Hreg, lookup_delete_eq, Hhash;
      eexists; split_and!; try done; simpl; apply last_snoc. }
  exists w1, w2. unfold _receive_loop_pass. simpl.
  rewrite Hfirst, Hsecond, Hself2. done.
Qed.


(** X15. What a pass of the receive loop can change: it never adds an entry
    to the registry, never creates a future or changes the task id of one,
    never touches a future that the registry does not refer to, and leaves
    the task queue, what was sent and announced, and the coordinator's
    identity alone. *)
Theorem receive_pass_frame (ctl : option (list string))
    (result : option pyobj) (w : world) :
  let w' := (_receive_loop_pass ctl result w).2 in
  (∀ k r, pending_futures (self w') !! k = Some r →
          pending_futures (self w) !! k = Some r) ∧
  length (heap w') = length (heap w) ∧
  (∀ r, (∀ k, pending_futures (self w) !! k ≠ Some r) →
        heap w' !! r = heap w !! r) ∧
  (∀ r fut', heap w' !! r = Some fut' →
     ∃ fut, heap w !! r = Some fut ∧ task_id fut' = task_id fut) ∧
  task_queue (self w') = task_queue (self w) ∧
  instance_id (self w') = instance_id (self w) ∧
  task_sent w' = task_sent w ∧
  inproc w' = inproc w ∧
  announced w' = announced w.
Proof.
  cbv zeta. unfold _receive_loop_pass. rewrite LoopFacts.finally_state.
  destruct (shutdown_requested ctl); [simpl; split_and!; eauto|].
  destruct result as [msg|]; [|simpl; split_and!; eauto].
  destruct (ResultFacts.receive_result_frame msg w)
    as (H1 & H2 & H3 & H4 & H5 & H6 & H7 & H8 & H9 & _).
  destruct (receive_result msg w) as [[| |e] w']; simpl in *;
    split_and!; done.
Qed.

(** X16. A loop of the coordinator that is left, by a shutdown request or
    by an exception, closes its own two sockets and no other; a pass after
    which the loop goes on closes none. *)
Theorem loops_close_their_own_sockets (ctl : option (list string))
    (result : option pyobj) (ev : announce_poll) (w : world) (a : announcer) :
  let closed (own : list string) (r : status * world) :=
    open_sockets r.2 =
      match r.1 with
      | Running => open_sockets w
      | _ => open_sockets w ∖ list_to_set own
      end in
  closed dispatch_sockets (_dispatch_loop_pass ctl w) ∧
  closed receive_sockets (_receive_loop_pass ctl result w) ∧
  closed announce_sockets
    ((_announce_loop_pass ev (w, a)).1, (_announce_loop_pass ev (w, a)).2.1).
Proof.
  cbv zeta. split_and!.
  - destruct (LoopFacts.dispatch_pass_cases ctl w) as [[_ ->]|[_ ->]]; [done|].
    simpl. by destruct (LoopFacts.drain_queue_fields w) as (_ & _ & _ & _ & ->).
  - unfold _receive_loop_pass.
    rewrite LoopFacts.finally_status, LoopFacts.finally_state.
    destruct (shutdown_requested ctl); [done|].
    destruct result as [msg|]; [|done].
    destruct (ResultFacts.receive_result_frame msg w)
      as (_ & _ & _ & _ & _ & _ & _ & _ & _ & Hopen).
    destruct (receive_result msg w) as [[| |e] w']; simpl in *;
      by rewrite Hopen.
  - unfold _announce_loop_pass. destruct ev as [messages now|t now].
    + by destruct (bool_decide ("shutdown" ∈ messages)).
    + done.
Qed.

(** ** The announce loop over many polls *)

Module AnnounceStream.
Import Streams.

Lemma next_interval_bounds H last now :
  (0 <= H)%Q → (last <= now)%Q →
  (0 <= next_interval H last now)%Q ∧ (next_interval H last now <= H)%Q.
Proof.
  intros HH Hclock. unfold next_interval.
  destruct (Qlt_le_dec (now - last) H) as [Hlt|Hle].
  - split; [|by apply Qlt_le_weak].
    unfold Qminus. by apply (proj1 (Qle_minus_iff last now)).
  - split; [done|apply Qle_refl].
Qed.

Lemma announce_passes_bounds evs w a :
  (0 <= server_heartbeat_interval (self w))%Q →
  clock_ok (last_announce a) evs →
  (0 <= remaining_interval a)%Q →
  (remaining_interval a <= server_heartbeat_interval (self w))%Q →
  let r := announce_passes evs (w, a) in
  (0 <= remaining_interval r.2.2)%Q ∧
  (remaining_interval r.2.2 <= server_heartbeat_interval (self w))%Q.
Proof.
  intros HH. cbv zeta. revert w a HH.
  induction evs as [|ev evs IH]; intros w a HH Hclock Hlo Hhi; [done|].
  destruct ev as [messages now|t now]; simpl in *.
  - destruct Hclock as [Hnow Hclock].
    destruct (bool_decide ("shutdown" ∈ messages)); simpl; [done|].
    destruct (next_interval_bounds (server_heartbeat_interval (self w))
                (last_announce a) now HH Hnow) as [Hlo' Hhi'].
    by apply (IH (with_announced _ w)).
  - destruct Hclock as [Hnow Hclock].
    destruct (next_interval_bounds (server_heartbeat_interval (self w))
                t now HH Hnow) as [Hlo' Hhi'].
    by apply (IH (with_announced _ w)).
Qed.

End AnnounceStream.

(** X17. While no ['shutdown'] arrives, the announce loop goes on, and what
    it has broadcast is, poll after poll and in this order: every message
    that woke it, forwarded as it came, and one ['ping'] for every timeout.
    It closes no socket and touches neither the futures nor what was
    dispatched. *)
Theorem announce_loop_forwards_and_pings (evs : list announce_poll)
    (w : world) (a : announcer) :
  Forall (λ ev, ¬ Streams.brings_shutdown ev) evs →
  ∃ w' a',
    announce_passes evs (w, a) = (Running, (w', a')) ∧
    announced w' = announced w ++ (evs ≫= Streams.broadcast) ∧
    self w' = self w ∧
    open_sockets w' = open_sockets w ∧
    task_sent w' = task_sent w ∧
    heap w' = heap w.
Proof.
  intros Hevs. revert w a.
  induction Hevs as [|ev evs Hev _ IH]; intros w a.
  - exists w, a. simpl. by rewrite app_nil_r.
  - destruct ev as [messages now|t now]; simpl in *.
    + rewrite bool_decide_eq_false_2 by done. simpl.
      edestruct IH as (w' & a' & -> & Hann & Hself & Hopen & Hsent & Hheap).
      exists w', a'. split; [done|].
      rewrite Hann, Hself, Hopen, Hsent, Hheap. simpl.
      by rewrite app_assoc.
    + edestruct IH as (w' & a' & -> & Hann & Hself & Hopen & Hsent & Hheap).
      exists w', a'. split; [done|].
      rewrite Hann, Hself, Hopen, Hsent, Hheap. simpl.
      by rewrite <- app_assoc.
Qed.

(** X18. The first poll whose messages hold ['shutdown'] ends the announce
    loop: it broadcasts ['shutdown'] once, drops the other messages of that
    batch, returns with its two sockets closed, and the polls after it are
    never made. *)
Theorem announce_loop_ends_on_shutdown (evs1 evs2 : list announce_poll)
    (messages : list string) (now : Q) (w : world) (a : announcer) :
  Forall (λ ev, ¬ Streams.brings_shutdown ev) evs1 →
  "shutdown" ∈ messages →
  ∃ w' a',
    announce_passes (evs1 ++ Woken messages now :: evs2) (w, a) =
      (Returned, (w', a')) ∧
    announced w' =
      announced w ++ (evs1 ≫= Streams.broadcast) ++ ["shutdown"] ∧
    open_sockets w' = open_sockets w ∖ list_to_set announce_sockets.
Proof.
  intros Hevs Hin. revert w a.
  induction Hevs as [|ev evs1 Hev _ IH]; intros w a.
  - simpl. rewrite bool_decide_eq_true_2 by done. simpl.
    by eexists _, _.
  - destruct ev as [batch t|t t']; simpl in *.
    + rewrite bool_decide_eq_false_2 by done. simpl.
      edestruct IH as (w' & a' & -> & Hann & Hopen).
      exists w', a'. split; [done|]. rewrite Hann, Hopen. simpl.
      by rewrite <- !app_assoc.
    + edestruct IH as (w' & a' & -> & Hann & Hopen).
      exists w', a'. split; [done|]. rewrite Hann, Hopen. simpl.
      by rewrite <- !app_assoc.
Qed.

(** X19. When the clock does not go back, the timeout that the announce
    loop hands to its poll is never negative and never more than the
    heartbeat interval, from the first poll on. *)
Theorem announce_timeout_is_bounded (evs : list announce_poll) (w : world) :
  (0 <= server_heartbeat_interval (self w))%Q →
  Streams.clock_ok 0 evs →
  let a := (_announce_loop evs w).2.2 in
  (0 <= poll_timeout a)%Q ∧
  (poll_timeout a <= server_heartbeat_interval (self w) * 1000)%Q.
Proof.
  intros HH Hclock. cbv zeta. unfold _announce_loop.
  set (w0 := loop_prologue announce_sockets w).
  assert (self w0 = self w) as Hself by done.
  clearbody w0.
  destruct (AnnounceStream.announce_passes_bounds evs w0
              (announcer_start (self w0))) as [Hlo Hhi].
  - by rewrite Hself.
  - done.
  - simpl. by rewrite Hself.
  - simpl. apply Qle_refl.
  - rewrite Hself in Hlo, Hhi |- *. unfold poll_timeout. split.
    + apply Qmult_le_0_compat; [done|]. by vm_compute.
    + apply Qmult_le_compat_r; [done|]. by vm_compute.
Qed.

(** ** The worker over many tasks *)

Module WorkerStream.
Import Worker Streams.

Section facts.
Variable invoke : pyobj → pyobj → pyobj → outcome.

Lemma run_pass_sends m w :
  let r := run_pass invoke m w in
  (result_sent r.2 = result_sent w ∨
   ∃ res, result_sent r.2 = result_sent w ++ [res]) ∧
  (r.1 ≠ Running →
   task_socket_open r.2 = false ∧ result_socket_open r.2 = false).
Proof.
  cbv zeta. unfold run_pass.
  rewrite LoopFacts.finally_status, LoopFacts.finally_state.
  unfold run_body.
  destruct (unpack_task m) as [[]|[[[[sid tid] fn] args] kwargs]];
    simpl; try (split; [by left|done]).
  unfold execute.
  repeat case_decide; try (simpl; split; [by left|done]);
    destruct (invoke fn args kwargs); simpl;
    (split; [eauto|done]).
Qed.


End facts.
End WorkerStream.

Section worker_stream.
Import Worker.
Variable invoke : pyobj → pyobj → pyobj → outcome.


(** X21. Whatever the task messages are, the worker never takes back a
    result that it sent and sends at most one result per task message; and
    when its loop ends, by whatever exception, both of its sockets are
    closed. *)
Theorem worker_results_only_grow (tasks : list pyobj) (w : worker) :
  let r := run invoke tasks w in
  result_sent w `prefix_of` result_sent r.2 ∧
  length (result_sent r.2) ≤ length (result_sent w) + length tasks ∧
  (r.1 ≠ Running →
   task_socket_open r.2 = false ∧ result_socket_open r.2 = false).
Proof.
  cbv zeta. revert w. induction tasks as [|m tasks IH]; intros w; simpl.
  - split_and!; [done|lia|done].
  - destruct (WorkerStream.run_pass_sends invoke m w) as [Hsent Hclosed].
    destruct (run_pass invoke m w) as [[| |e] w1] eqn:Hpass; simpl in *.
    + destruct (IH w1) as (Hpre & Hlen & Hend). split_and!; [| |done].
      * etrans; [|exact Hpre].
        destruct Hsent as [->|[res ->]]; [done|by apply prefix_app_r].
      * destruct Hsent as [Heq|[res Heq]]; rewrite Heq in Hlen;
          rewrite ?length_app in Hlen; simpl in Hlen; lia.
    + split_and!; [| |by auto].
      * destruct Hsent as [->|[res ->]]; [done|by apply prefix_app_r].
      * destruct Hsent as [->|[res ->]]; rewrite ?length_app; simpl; lia.
    + split_and!; [| |by auto].
      * destruct Hsent as [->|[res ->]]; [done|by apply prefix_app_r].
      * destruct Hsent as [->|[res ->]]; rewrite ?length_app; simpl; lia.
Qed.

End worker_stream.

(** ** Start-up: progress and failure *)

Module StartupProgress.
Import Startup StartupFacts Streams.

Lemma started_step a s s' : step a s = Some s' → started_ok s → started_ok s'.
Proof.
  unfold started_ok. intros Hstep H.
  destruct s as [m dp rp ap bd fl rdv rcv].
  pose proof (H Dispatch) as HD. pose proof (H Receive) as HR.
  pose proof (H Announce) as HA. clear H. simpl in *.
  destruct a as [|l|l|l]; simpl in Hstep.
  - unfold step_main, start_thread, recv_ack in Hstep; simpl in Hstep.
    destruct m; simpl in *; try (destruct rdv as [|l0 rdv]; [done|]);
      simplify_eq; intros []; simpl; try done; auto.
  - unfold step_loop in Hstep. destruct l; simpl in *.
    all: match type of Hstep with
         | match ?p with _ => _ end = _ => destruct p eqn:Hpc
         end; try done.
    all: try case_decide; simplify_eq; intros []; simpl; try done; auto.
  - unfold bind_fails in Hstep. destruct l; simpl in *.
    all: match type of Hstep with
         | match ?p with _ => _ end = _ => destruct p eqn:Hpc
         end; try done.
    all: simplify_eq; intros []; simpl; try done; auto.
  - unfold deliver in Hstep. simpl in Hstep.
    case_decide; simplify_eq. intros []; simpl; auto.
Qed.

Lemma reachable_started s : reachable s → started_ok s.
Proof.
  revert s. apply rtc_ind_r; [by intros []|].
  intros s1 s2 _ [a Hstep] IH. by apply (started_step a s1).
Qed.

Lemma reachable_step a s s' : reachable s → step a s = Some s' → reachable s'.
Proof. intros Hs Hstep. eapply rtc_r; [exact Hs|by exists a]. Qed.

Lemma reachable_rtc s s' : reachable s → rtc steps s s' → reachable s'.
Proof. intros Hs Hsteps. by apply (rtc_trans init s s'). Qed.

(** The acknowledgments that exist are those of the polling loops. *)
Lemma acks_total s :
  invariant s →
  length (in_flight s) + length (rendezvous s) + receives_done (main s) =
    acked Dispatch s + acked Receive s + acked Announce s.
Proof.
  intros [Hacks Hrecv _ _ _ _].
  pose proof (length_count (in_flight s)). pose proof (length_count (rendezvous s)).
  pose proof (length_count (received s)).
  pose proof (Hacks Dispatch). pose proof (Hacks Receive).
  pose proof (Hacks Announce). lia.
Qed.

Lemma acked_le l s : acked l s ≤ 1.
Proof. unfold acked. destruct (pc_of l s); lia. Qed.

Lemma acked_polling l s : acked l s = 1 → pc_of l s = Polling.
Proof. unfold acked. by destruct (pc_of l s). Qed.

(** After the third receive, every loop is polling and no acknowledgment
    is on its way. *)
Lemma received_all s :
  invariant s → receives_done (main s) = 3 →
  (∀ l, pc_of l s = Polling) ∧ in_flight s = [] ∧ rendezvous s = [].
Proof.
  intros Hinv Hdone. pose proof (acks_total s Hinv) as Htotal.
  pose proof (acked_le Dispatch s). pose proof (acked_le Receive s).
  pose proof (acked_le Announce s).
  split_and!.
  - intros l. apply acked_polling. destruct l; lia.
  - apply length_zero_iff_nil. lia.
  - apply length_zero_iff_nil. lia.
Qed.

(** A loop that is about to acknowledge finds the rendezvous bound. *)
Lemma signal_finds_rendezvous s l :
  reachable s → pc_of l s ∈ [BindPublic; BindControl; Signal] →
  StartupCtl ∈ bound s.
Proof.
  intros Hs Hpc. pose proof (reachable_invariant s Hs) as Hinv.
  pose proof (reachable_started s Hs) as Hstarted.
  apply (inv_rendezvous s Hinv).
  destruct (main s) eqn:Hmain; simpl; try done.
  - rewrite (inv_start s Hinv l) in Hpc; [set_solver|].
    rewrite Hmain. by destruct l.
  - destruct (received_all s Hinv) as [Hpolling _]; [by rewrite Hmain|].
    rewrite Hpolling in Hpc. set_solver.
Qed.

Lemma length_remove_one l xs :
  l ∈ xs → length xs = S (length (remove_one l xs)).
Proof.
  induction xs as [|x xs IH]; [by intros ?%elem_of_nil|].
  intros Hin. simpl. destruct (decide (l = x)) as [->|Hne]; [done|].
  apply elem_of_cons in Hin as [|Hin]; [done|]. simpl. by rewrite <- IH.
Qed.

(** A step other than a failing bind is one step of progress, and crashes
    no loop. *)
Lemma step_decreases a s s' :
  reachable s → not_a_failure a → step a s = Some s' →
  steps_left s = S (steps_left s') ∧ (no_crash s → no_crash s').
Proof.
  intros Hs Ha Hstep.
  pose proof (reachable_started s Hs) as Hstarted.
  pose proof (λ l, signal_finds_rendezvous s l Hs) as Hsignal.
  pose proof (inv_start s (reachable_invariant s Hs)) as Hstart.
  unfold steps_left, no_crash.
  destruct s as [m dp rp ap bd fl rdv rcv].
  pose proof (Hstart Dispatch) as HD. pose proof (Hstart Receive) as HR.
  pose proof (Hstart Announce) as HA. clear Hstart. simpl in *.
  destruct a as [|l|l|l]; simpl in Hstep.
  - unfold step_main, start_thread, recv_ack in Hstep; simpl in Hstep.
    destruct m; simpl in *; try (destruct rdv as [|l0 rdv]; [done|]);
      simplify_eq; simpl;
      try rewrite HD by done; try rewrite HR by done; try rewrite HA by done;
      (split; [simpl; lia|]);
      intros Hno l; specialize (Hno l); destruct l; simpl in *; done.
  - unfold step_loop in Hstep. specialize (Hsignal l).
    destruct l; simpl in *.
    all: match type of Hstep with
         | match ?p with _ => _ end = _ => destruct p eqn:Hpc
         end; try done.
    all: try (rewrite decide_True in Hstep by (apply Hsignal; set_solver)).
    all: simplify_eq; simpl; rewrite ?length_app; simpl.
    all: (split; [lia|]).
    all: intros Hno l; specialize (Hno l); destruct l; simpl in *; done.
  - by destruct (Ha l).
  - unfold deliver in Hstep. simpl in Hstep.
    case_decide as Hin; simplify_eq. simpl.
    rewrite (length_remove_one l fl Hin). split; [lia|done].
Qed.

(** While [startup()] has not returned and no loop has crashed, some thread
    or the transport can move. *)
Lemma progress s :
  reachable s → no_crash s → main s ≠ MReturned →
  ∃ a s', not_a_failure a ∧ step a s = Some s'.
Proof.
  intros Hs Hno Hmain.
  pose proof (reachable_invariant s Hs) as Hinv.
  pose proof (reachable_started s Hs) as Hstarted.
  pose proof (acks_total s Hinv) as Htotal.
  assert (receives_done (main s) < 3 → rendezvous s = [] → in_flight s = [] →
          ¬ before_start Announce (main s) →
          ∃ l, pc_of l s ∈ [BindPublic; BindControl; Signal]) as Hloop.
  { intros Hdone Hq Hf Hm. rewrite Hq, Hf in Htotal. simpl in Htotal.
    assert (∃ l, acked l s = 0) as [l Hl].
    { pose proof (acked_le Dispatch s). pose proof (acked_le Receive s).
      pose proof (acked_le Announce s).
      destruct (acked Dispatch s) eqn:?; [by exists Dispatch|].
      destruct (acked Receive s) eqn:?; [by exists Receive|].
      destruct (acked Announce s) eqn:?; [by exists Announce|]. lia. }
    exists l. specialize (Hno l). specialize (Hstarted l).
    unfold acked in Hl. destruct (pc_of l s) eqn:Hpc; try done; try set_solver.
    destruct Hm. specialize (Hstarted eq_refl).
    destruct l, (main s); done. }
  assert (∀ l, pc_of l s ∈ [BindPublic; BindControl; Signal] →
               ∃ a s', not_a_failure a ∧ step a s = Some s') as Hrun.
  { intros l Hl. exists (RunLoop l). simpl. unfold step_loop.
    destruct (pc_of l s); try set_solver; try case_decide;
      eexists; (split; [by intros ?|done]). }
  assert (∀ next, (∃ s', recv_ack next s = Some s') ∨ rendezvous s = [])
    as Hrecv.
  { intros next. unfold recv_ack. destruct (rendezvous s); eauto. }
  assert (in_flight s = [] ∨ ∃ a s', not_a_failure a ∧ step a s = Some s')
    as [Hf|?]; [| |done].
  { destruct (in_flight s) as [|l fl] eqn:Hfl; [by left|right].
    exists (Deliver l). simpl. unfold deliver. rewrite Hfl.
    rewrite decide_True by set_solver. eexists. split; [by intros ?|done]. }
  destruct (main s) eqn:Hm; try done;
    try (exists RunMain; simpl; unfold step_main; rewrite Hm;
         eexists; (split; [by intros ?|done])).
  - destruct (Hrecv MRecv2) as [[s' Hs']|Hq].
    + exists RunMain, s'. split; [by intros ?|]. simpl. unfold step_main.
      by rewrite Hm.
    + destruct Hloop as [l Hl]; simpl; try done; try lia; auto. eauto.
  - destruct (Hrecv MRecv3) as [[s' Hs']|Hq].
    + exists RunMain, s'. split; [by intros ?|]. simpl. unfold step_main.
      by rewrite Hm.
    + destruct Hloop as [l Hl]; simpl; try done; try lia; auto. eauto.
  - destruct (Hrecv MClose) as [[s' Hs']|Hq].
    + exists RunMain, s'. split; [by intros ?|]. simpl. unfold step_main.
      by rewrite Hm.
    + destruct Hloop as [l Hl]; simpl; try done; try lia; auto. eauto.
Qed.

Lemma fail_free_cons a sched :
  fail_free (a :: sched) → not_a_failure a ∧ fail_free sched.
Proof.
  unfold fail_free, not_a_failure. intros Hfree. split.
  - intros l ->. apply (Hfree l). by left.
  - intros l Hin. apply (Hfree l). by right.
Qed.

Lemma fail_free_run sched s s' :
  reachable s → no_crash s → fail_free sched →
  run_schedule sched s = Some s' →
  reachable s' ∧ no_crash s' ∧ length sched + steps_left s' = steps_left s.
Proof.
  revert s. induction sched as [|a sched IH]; simpl; intros s Hs Hno Hfree.
  - by intros [= <-].
  - apply fail_free_cons in Hfree as [Ha Hfree].
    destruct (step a s) as [s1|] eqn:Hstep; [|done]. intros Hrun.
    destruct (step_decreases a s s1 Hs Ha Hstep) as [Hdec Hno1].
    destruct (IH s1) as (Hs' & Hno' & Hlen); auto.
    { by apply (reachable_step a s). }
    split_and!; [done|done|lia].
Qed.

(** A crashed loop stays crashed. *)
Lemma crashed_step a s s' l :
  reachable s → step a s = Some s' →
  pc_of l s = Crashed → pc_of l s' = Crashed.
Proof.
  intros Hs Hstep.
  pose proof (inv_start s (reachable_invariant s Hs)) as Hstart.
  destruct s as [m dp rp ap bd fl rdv rcv].
  pose proof (Hstart Dispatch) as HD. pose proof (Hstart Receive) as HR.
  pose proof (Hstart Announce) as HA. clear Hstart Hs. simpl in *.
  destruct a as [|l'|l'|l']; simpl in Hstep.
  - unfold step_main, start_thread, recv_ack in Hstep; simpl in Hstep.
    destruct m; simpl in *; try (destruct rdv as [|l0 rdv]; [done|]);
      simplify_eq; destruct l; simpl; try done;
      intros ->; by (specialize (HD I) || specialize (HR I) || specialize (HA I)).
  - unfold step_loop in Hstep. destruct l'; simpl in *.
    all: match type of Hstep with
         | match ?p with _ => _ end = _ => destruct p eqn:Hpc
         end; try done.
    all: try case_decide; simplify_eq; destruct l; simpl; done.
  - unfold bind_fails in Hstep. destruct l'; simpl in *.
    all: match type of Hstep with
         | match ?p with _ => _ end = _ => destruct p eqn:Hpc
         end; try done.
    all: simplify_eq; destruct l; simpl; done.
  - unfold deliver in Hstep. simpl in Hstep.
    case_decide; simplify_eq. by destruct l.
Qed.

Lemma crashed_rtc s s' l :
  reachable s → rtc steps s s' →
  pc_of l s = Crashed → pc_of l s' = Crashed.
Proof.
  intros Hs Hsteps. revert Hs.
  induction Hsteps as [s|s s1 s' [a Hstep] _ IH]; [done|].
  intros Hs Hpc. apply IH.
  - by apply (reachable_step a s).
  - by apply (crashed_step a s).
Qed.

End StartupProgress.

Section startup_progress.
Import Startup StartupFacts StartupProgress.

(** X22. When no bind fails, no loop crashes (the rendezvous is always
    bound when a loop acknowledges), every step of the four threads and of
    the transport is one of the twenty steps of the start-up, and, until
    [startup()] has returned, some thread or the transport can take a next
    step: every such execution leads [startup()] to return, after twenty
    steps. *)
Theorem startup_returns_unless_a_bind_fails (sched : list action) (s : state) :
  Streams.fail_free sched →
  run_schedule sched init = Some s →
  (∀ l, pc_of l s ≠ Crashed) ∧
  length sched + Streams.steps_left s = 20 ∧
  (main s = MReturned ↔ length sched = 20) ∧
  (main s = MReturned ∨
   ∃ a s', (∀ l, a ≠ BindFails l) ∧ step a s = Some s').
Proof.
  intros Hfree Hrun.
  destruct (fail_free_run sched init s) as (Hs & Hno & Hlen); try done.
  { apply rtc_refl. }
  { by intros []. }
  change (Streams.steps_left init) with 20 in Hlen.
  split_and!; [done|done| |].
  - split.
    + intros Hmain.
      destruct (received_all s (reachable_invariant s Hs))
        as (Hpolling & Hf & _); [by rewrite Hmain|].
      unfold Streams.steps_left in Hlen.
      rewrite Hmain, Hf in Hlen.
      rewrite (Hpolling Dispatch : dispatch_pc s = Polling) in Hlen.
      rewrite (Hpolling Receive : receive_pc s = Polling) in Hlen.
      rewrite (Hpolling Announce : announce_pc s = Polling) in Hlen.
      simpl in Hlen. lia.
    + intros Hall. unfold Streams.steps_left in Hlen.
      destruct (main s); simpl in Hlen; try done; lia.
  - destruct (decide (main s = MReturned)) as [|Hmain]; [by left|right].
    by apply progress.
Qed.

(** X23. A loop that has crashed, because one of its binds failed, stays
    crashed and never acknowledges: [startup()] completes at most two of
    its three receives and never returns. *)
Theorem crashed_loop_blocks_startup (s s' : state) (l : loop) :
  reachable s →
  pc_of l s = Crashed →
  rtc steps s s' →
  receives_done (main s') ≤ 2 ∧
  main s' ≠ MReturned ∧
  pc_of l s' = Crashed.
Proof.
  intros Hs Hpc Hsteps.
  pose proof (reachable_rtc s s' Hs Hsteps) as Hs'.
  pose proof (crashed_rtc s s' l Hs Hsteps Hpc) as Hpc'.
  pose proof (acks_total s' (reachable_invariant s' Hs')) as Htotal.
  assert (acked l s' = 0) as Hl by (unfold acked; by rewrite Hpc').
  pose proof (acked_le Dispatch s'). pose proof (acked_le Receive s').
  pose proof (acked_le Announce s').
  assert (receives_done (main s') ≤ 2) as Hdone by (destruct l; lia).
  split_and!; [done| |done].
  intros Hmain. rewrite Hmain in Hdone. simpl in Hdone. lia.
Qed.

End startup_progress.

(** ** Results in any order *)

Module OrderFacts.
Import Streams ReceiveFacts.

Lemma receive_result_fulfils iid tid v ft w :
  pending_futures (self w) !! tid = Some ft →
  ∃ w1,
    receive_result (PyTuple [iid; tid; PyStr "result"; v]) w = (Running, w1) ∧
    heap w1 = alter (_set_result v) ft (heap w) ∧
    pending_futures (self w1) = delete tid (pending_futures (self w)).
Proof.
  intros Hft. unfold receive_result. simpl.
  destruct (decide (iid ≠ instance_id (self w)));
    unfold dict_pop; simpl; rewrite Hft; simpl; eauto.
Qed.

End OrderFacts.

Section result_order.
Import Streams ReceiveFacts OrderFacts.

(** X24. Results may arrive in any order.  When the results of a batch are
    for different pending tasks, the receive loop goes on through all of
    them; each result fulfils the future that the registry holds for its
    task id, whoever sent it; the registry loses exactly these task ids; and
    every other future is as it was. *)
Theorem results_resolve_their_own_futures
    (rs : list (pyobj * pyobj * pyobj)) (w : world) :
  registry_ok w →
  NoDup (result_task <$> rs) →
  Forall (λ r, is_Some (pending_futures (self w) !! result_task r)) rs →
  ∃ w',
    receive_passes (result_message <$> rs) w = (Running, w') ∧
    (∀ iid tid v ft,
       (iid, tid, v) ∈ rs → pending_futures (self w) !! tid = Some ft →
       heap w' !! ft = _set_result v <$> heap w !! ft) ∧
    (∀ k, pending_futures (self w') !! k =
            if decide (k ∈ result_task <$> rs) then None
            else pending_futures (self w) !! k) ∧
    (∀ r, (∀ k, k ∈ result_task <$> rs →
                pending_futures (self w) !! k ≠ Some r) →
          heap w' !! r = heap w !! r).
Proof.
  revert w. induction rs as [|[[iid tid] v] rs IH]; intros w Hok Hnodup Hall.
  - exists w. simpl. split_and!; try done. by intros ???? ?%elem_of_nil.
  - rewrite fmap_cons in Hnodup. apply NoDup_cons in Hnodup as [Hfresh Hnodup].
    apply Forall_cons in Hall as [[ft Hft] Hall].
    change (result_task (iid, tid, v)) with tid in Hft, Hfresh.
    destruct (receive_result_fulfils iid tid v ft w Hft)
      as (w1 & Hres & Hheap & Hreg).
    pose proof (registry_ok_receive_result _ _ _ _ Hres Hok) as Hok1.
    destruct (IH w1) as (w' & Hrun & Hfulfil & Hleft & Hframe);
      [done|done| |].
    { apply Forall_forall. intros r Hr.
      destruct (proj1 (Forall_forall _ _) Hall r Hr) as [ft' Hft'].
      exists ft'. rewrite Hreg.
      rewrite lookup_delete_ne; [done|].
      intros ->. apply Hfresh. apply list_elem_of_fmap. by exists r. }
    assert (∀ k, k ∈ result_task <$> rs →
                 pending_futures (self w1) !! k ≠ Some ft) as Hgone.
    { intros k Hk. rewrite Hreg. intros [Hne Hk']%lookup_delete_Some.
      destruct (Hok tid ft Hft) as [_ Honly]. by specialize (Honly k Hk'). }
    exists w'. split_and!.
    + simpl. unfold _receive_loop_pass. simpl. by rewrite Hres.
    + intros iid' tid' v' ft' [[= -> -> ->]|Hin]%elem_of_cons Hft'.
      * assert (ft' = ft) as -> by congruence.
        rewrite (Hframe ft Hgone), Hheap. apply list_lookup_alter_eq.
      * assert (tid' ≠ tid) as Hne.
        { intros ->. apply Hfresh. apply list_elem_of_fmap.
          by exists (iid', tid, v'). }
        rewrite (Hfulfil iid' tid' v' ft' Hin).
        -- rewrite Hheap, list_lookup_alter_ne; [done|].
           intros ->. destruct (Hok tid ft' Hft) as [_ Honly].
           by specialize (Honly tid' Hft').
        -- rewrite Hreg. by rewrite lookup_delete_ne.
    + intros k. rewrite Hleft, Hreg. rewrite fmap_cons. simpl.
      destruct (decide (k = tid)) as [->|Hne].
      * rewrite lookup_delete_eq. rewrite (decide_True (P := tid ∈ tid :: _))
          by (by left). by case_decide.
      * rewrite lookup_delete_ne by done.
        destruct (decide (k ∈ result_task <$> rs)) as [Hin|Hout].
        -- rewrite decide_True; [done|by right].
        -- rewrite decide_False; [done|].
           by intros [|]%elem_of_cons.
    + intros r Hr. rewrite Hframe.
      * rewrite Hheap. apply list_lookup_alter_ne. intros ->.
        apply (Hr tid); [by left|done].
      * intros k Hk. rewrite Hreg. intros [_ Hk']%lookup_delete_Some.
        apply (Hr k); [by right|done].
Qed.

End result_order.

(** ** The registry over the life of a coordinator *)

Module RegistryFacts.
Import Streams.

Lemma names_fields w w' :
  self w' = self w → heap w' = heap w →
  registry_names_futures w → registry_names_futures w'.
Proof. unfold registry_names_futures. by intros -> ->. Qed.

Lemma names_make_append_task tid fn args kwargs w :
  registry_names_futures w →
  registry_names_futures (_make_append_task tid fn args kwargs w).2.
Proof.
  intros Hnames k ft. simpl. destruct (decide (tid = k)) as [->|Hne].
  - rewrite lookup_insert_eq. intros [= <-]. exists (new_future k).
    by rewrite lookup_app_r, Nat.sub_diag.
  - rewrite lookup_insert_ne by done. intros Hk.
    destruct (Hnames k ft Hk) as (fut & Hfut & Hid). exists fut.
    split; [|done]. rewrite lookup_app_l; [done|]. by eapply lookup_lt_Some.
Qed.

Lemma names_make_append_tasks tasks w :
  registry_names_futures w →
  registry_names_futures (make_append_tasks tasks w).2.
Proof.
  revert w. induction tasks as [|[tid [[fn args] kwargs]] tasks IH];
    intros w Hnames; [done|].
  simpl. specialize (IH _ (names_make_append_task tid fn args kwargs w Hnames)).
  simpl in IH.
  by destruct (make_append_tasks tasks _) as [fts w'].
Qed.

Lemma names_receive_pass ctl result w :
  registry_names_futures w →
  registry_names_futures (_receive_loop_pass ctl result w).2.
Proof.
  intros Hnames. unfold _receive_loop_pass. rewrite LoopFacts.finally_state.
  assert (∀ msg, registry_names_futures (receive_result msg w).2) as Hres.
  { intros msg k ft Hk.
    destruct (ResultFacts.receive_result_frame msg w)
      as (Hshrink & Hlen & _ & Hids & _).
    destruct (Hnames k ft (Hshrink k ft Hk)) as (fut & Hfut & Hid).
    destruct (lookup_lt_is_Some_2 (heap (receive_result msg w).2) ft)
      as [fut' Hfut'].
    { rewrite Hlen. by eapply lookup_lt_Some. }
    exists fut'. split; [done|].
    destruct (Hids ft fut' Hfut') as (fut0 & Hfut0 & ->). congruence. }
  destruct (shutdown_requested ctl); [done|].
  destruct result as [msg|]; [|done].
  specialize (Hres msg).
  destruct (receive_result msg w) as [[| |e] w']; done.
Qed.

Lemma names_perform w op :
  registry_names_futures w → registry_names_futures (perform w op).
Proof.
  intros Hnames. destruct op as [tid fn args kwargs|tasks| |ctl|ctl result];
    simpl.
  - by apply (names_make_append_task tid fn args kwargs).
  - pose proof (names_make_append_tasks tasks w Hnames) as Hmany.
    unfold submit_many. by destruct (make_append_tasks tasks w) as [fts w'].
  - destruct (LoopFacts.shutdown_fields w) as (_ & Hreg & Hheap & _).
    intros k ft. rewrite Hreg, Hheap. apply Hnames.
  - destruct (LoopFacts.dispatch_pass_cases ctl w) as [[_ ->]|[_ ->]];
      [done|].
    destruct (LoopFacts.drain_queue_fields w) as (_ & _ & Hreg & Hheap & _).
    intros k ft. simpl. rewrite Hreg, Hheap. apply Hnames.
  - by apply names_receive_pass.
Qed.

End RegistryFacts.

(** X25. The registry stays true to the futures.  From a coordinator with
    an empty registry, after any sequence of [submit], [submit_many] and
    [shutdown] calls and passes of the dispatch and the receive loop, every
    entry of the registry refers to a future that exists and carries the
    task id of the entry; in particular no two task ids share a future. *)
Theorem registry_names_its_futures (s : ZMQWMServer)
    (ops : list Streams.operation) :
  pending_futures s = ∅ →
  let w := foldl Streams.perform (fresh_world s) ops in
  (∀ k ft, pending_futures (self w) !! k = Some ft →
     ∃ fut, heap w !! ft = Some fut ∧ task_id fut = k) ∧
  registry_ok w.
Proof.
  intros Hempty. cbv zeta.
  assert (Streams.registry_names_futures
            (foldl Streams.perform (fresh_world s) ops)) as Hnames.
  { assert (Streams.registry_names_futures (fresh_world s)) as Hstart.
    { intros k ft. simpl. by rewrite Hempty, lookup_empty. }
    revert Hstart. generalize (fresh_world s).
    induction ops as [|op ops IH]; intros w Hw; [done|].
    simpl. apply IH. by apply RegistryFacts.names_perform. }
  split; [exact Hnames|].
  intros k ft Hk. destruct (Hnames k ft Hk) as (fut & Hfut & Hid). split.
  - by eapply lookup_lt_Some.
  - intros k' Hk'. destruct (Hnames k' ft Hk') as (fut' & Hfut' & Hid').
    congruence.
Qed.

(** ** A worker and its server *)

Section worker_server.
Import Worker.
Variable invoke : pyobj → pyobj → pyobj → outcome.

(** X26. A worker answers one server.  Over its whole life, whatever the
    task messages and however its loop ends, every result message that the
    worker has sent has four elements and carries the server id that the
    worker remembers at the end (or [None], from tasks that came with the
    server id [None] while nothing was remembered). *)
Theorem worker_answers_one_server (tasks : list pyobj) :
  let w' := (run invoke tasks start).2 in
  Forall (λ res, ∃ server_id task_id result_type payload,
            res = PyTuple [server_id; task_id; result_type; payload] ∧
            (server_id = PyNone ∨ server_id = last_seen_server_id w'))
    (result_sent w').
Proof.
  cbv zeta.
  assert (∀ m w, Streams.one_server w →
                 Streams.one_server (run_pass invoke m w).2) as Hpass.
  { intros m w Hw. unfold run_pass. rewrite LoopFacts.finally_state.
    assert (∀ sid tid fn args kwargs w0,
              Streams.one_server w0 → last_seen_server_id w0 = sid →
              Streams.one_server (execute invoke sid tid fn args kwargs w0).2 ∧
              Streams.one_server
                (close_both (execute invoke sid tid fn args kwargs w0).2))
      as Hexec.
    { intros sid tid fn args kwargs w0 Hw0 Hsid. unfold execute.
      destruct (invoke fn args kwargs); unfold Streams.one_server; simpl;
        rewrite ?Forall_app, ?Forall_singleton; split; try done;
        (split; [done|]); eexists _, _, _, _; eauto. }
    unfold run_body.
    destruct (unpack_task m) as [[]|[[[[sid tid] fn] args] kwargs]];
      try done.
    destruct (decide (last_seen_server_id w = PyNone)) as [Hnone|Hsome].
    - destruct (Hexec sid tid fn args kwargs
                  (set_last_seen_server_id sid w)) as [Hrun Hend]; [|done|].
      + unfold Streams.one_server in *. simpl. rewrite Hnone in Hw.
        eapply Forall_impl; [exact Hw|]. simpl.
        intros res (s0 & t0 & r0 & p0 & -> & [->| ->]);
          eexists _, _, _, _; eauto.
      + by destruct (execute invoke sid tid fn args kwargs _) as [[| |e] w1].
    - destruct (decide (last_seen_server_id w ≠ sid)) as [|Heq]; [done|].
      apply dec_stable in Heq.
      destruct (Hexec sid tid fn args kwargs w Hw Heq) as [Hrun Hend].
      by destruct (execute invoke sid tid fn args kwargs w) as [[| |e] w1]. }
  assert (∀ w, Streams.one_server w →
               Streams.one_server (run invoke tasks w).2) as Hrun.
  { induction tasks as [|m ms IH]; intros w Hw; [done|]. simpl.
    specialize (Hpass m w Hw).
    destruct (run_pass invoke m w) as [[| |e] w1]; simpl in *; auto. }
  apply (Hrun start). by apply Forall_nil_2.
Qed.

End worker_server.

(** ** Examples for the further properties *)

Section further_examples.
Import Worker Startup.

(** [ETERM] after one message: the message is lost to the caller. *)
Lemma recvall_raises_other_errors_example :
  Base.recvall [Base.Arrives "a"; Base.Fails Base.ETERM; Base.Arrives "b"] =
    (inl Base.ETERM, [Base.Arrives "b"]).
Proof.
  apply (recvall_raises_other_errors ["a"] Base.ETERM [Base.Arrives "b"]).
  discriminate.
Defined.

(** Two endpoints are made; the file of the first is gone at exit. *)
Lemma remove_ipc_endpoints_cleans_up_example :
  ∃ st',
    Base.remove_ipc_endpoints
      (Base.mkIpc ["ipc:///tmp/a"; "ipc:///tmp/b"] {["/tmp/b"; "/etc/hosts"]}
         [])
      = (Base.Removed, st') ∧
    Base._ipc_endpoints st' = [] ∧
    Base.files st' =
      {["/tmp/b"; "/etc/hosts"]} ∖ list_to_set ["/tmp/a"; "/tmp/b"] ∧
    length (Base.log_debug st') = 2.
Proof.
  apply (remove_ipc_endpoints_cleans_up ["/tmp/a"; "/tmp/b"]
           (Base.mkIpc [] {["/etc/hosts"]} []) {["/tmp/b"; "/etc/hosts"]}).
  reflexivity.
Defined.

Lemma remove_ipc_endpoints_undoes_make_example :
  Base.remove_ipc_endpoints
    (Base.make_ipc_endpoints ["/tmp/a"; "/tmp/b"]
       (Base.mkIpc [] {["/etc/hosts"]} [])) =
    (Base.Removed,
     Base.mkIpc [] {["/etc/hosts"]}
       [Base.Unlinked "/tmp/b"; Base.Unlinked "/tmp/a"]).
Proof.
  refine (remove_ipc_endpoints_undoes_make ["/tmp/a"; "/tmp/b"]
            (Base.mkIpc [] {["/etc/hosts"]} []) _ _ _).
  - reflexivity.
  - apply NoDup_cons. split; [set_solver|]. apply NoDup_singleton.
  - simpl. set_solver.
Defined.

(** A [tcp://] address in the registry. *)
Lemma remove_ipc_endpoints_assertion_example :
  ∃ st',
    Base.remove_ipc_endpoints
      (Base.mkIpc ["ipc:///tmp/a"; "tcp://*:23811"; "ipc:///tmp/b"]
         {["/tmp/a"; "/tmp/b"]} []) = (Base.AssertionError, st') ∧
    Base._ipc_endpoints st' = ["ipc:///tmp/a"] ∧
    Base.files st' = {["/tmp/a"; "/tmp/b"]} ∖ list_to_set ["/tmp/b"].
Proof.
  apply (remove_ipc_endpoints_assertion ["ipc:///tmp/a"] ["/tmp/b"]
           "tcp://*:23811" {["/tmp/a"; "/tmp/b"]} []).
  reflexivity.
Defined.

(** [submit_many] of [add(2, 3)] and [div(1, 0)] on a new coordinator. *)
Lemma submissions_get_their_own_futures_example :
  let tasks :=
    [(PyUUID 100, (PyFunc "add", PyTuple [PyInt 2; PyInt 3], PyDict ∅));
     (PyUUID 101, (PyFunc "div", PyTuple [PyInt 1; PyInt 0], PyDict ∅))] in
  let r := submit_many tasks (fresh_world example_server) in
  r.1 = [0; 1] ∧
  heap r.2 = [new_future (PyUUID 100); new_future (PyUUID 101)] ∧
  pending_futures (self r.2) !! PyUUID 101 = Some 1.
Proof.
  intros tasks r.
  destruct (submissions_get_their_own_futures tasks
              (fresh_world example_server)) as (Hrefs & Hheap & Hreg & _).
  - apply NoDup_cons. split; [set_solver|]. apply NoDup_singleton.
  - split; [exact Hrefs|]. split; [exact Hheap|].
    exact (Hreg 1 (PyUUID 101) _ eq_refl).
Defined.

(** [submit(add, 2, 3)] and then [shutdown()] on a new coordinator. *)
Lemma task_queued_at_shutdown_is_not_sent_example :
  let w1 := shutdown one_pending in
  let ctl := Some (sent_to (_dispatch_thread_ctl_endpoint (self w1)) w1) in
  let r := dispatch_passes [ctl; None] w1 in
  r.1 = Returned ∧
  task_sent r.2 = [] ∧
  task_queue (self r.2) =
    [PyTuple [PyUUID 1; PyUUID 100; PyFunc "add"; PyTuple [PyInt 2; PyInt 3];
              PyDict ∅]].
Proof.
  intros w1 ctl r.
  destruct (task_queued_at_shutdown_is_not_sent (PyUUID 100) (PyFunc "add")
              (PyTuple [PyInt 2; PyInt 3]) (PyDict ∅)
              (fresh_world example_server) [None])
    as (Hst & Hsent & Hqueue & _).
  - reflexivity.
  - split; [exact Hst|]. split; [exact Hsent | exact Hqueue].
Defined.


(** Two results for the task UUID 100, the second from another instance. *)
Lemma second_result_is_ignored_example :
  ∃ w1 w2,
    _receive_loop_pass None
      (Some (PyTuple [PyUUID 1; PyUUID 100; PyStr "result"; PyInt 5]))
      one_pending = (Running, w1) ∧
    _receive_loop_pass None
      (Some (PyTuple [PyUUID 2; PyUUID 100; PyStr "result"; PyInt 6])) w1 =
      (Running, w2) ∧
    heap w2 = heap w1 ∧
    heap w1 = alter (_set_result (PyInt 5)) 0 (heap one_pending).
Proof.
  destruct (second_result_is_ignored (PyUUID 1) (PyUUID 2) (PyUUID 100)
              (PyInt 5) (PyStr "result") (PyInt 6) 0 one_pending)
    as (w1 & w2 & Hfirst & Hheap & Hsecond & Hsame & _).
  - reflexivity.
  - reflexivity.
  - exists w1, w2. repeat split; assumption.
Defined.


(** A heartbeat, a forwarded message, a heartbeat. *)
Lemma announce_loop_forwards_and_pings_example :
  ∃ w' a',
    announce_passes [TimedOut 10 10; Woken ["hello"] 12; TimedOut 20 20]
      (fresh_world example_server, announcer_start example_server) =
      (Running, (w', a')) ∧
    announced w' = ["ping"; "hello"; "ping"].
Proof.
  destruct (announce_loop_forwards_and_pings
              [TimedOut 10 10; Woken ["hello"] 12; TimedOut 20 20]
              (fresh_world example_server) (announcer_start example_server))
    as (w' & a' & Hrun & Hsent & _).
  - repeat constructor; simpl; set_solver.
  - exists w', a'. split; [exact Hrun | exact Hsent].
Defined.

(** ['shutdown'] between two other messages, after one heartbeat. *)
Lemma announce_loop_ends_on_shutdown_example :
  ∃ w' a',
    announce_passes
      [TimedOut 10 10; Woken ["x"; "shutdown"; "y"] 12; TimedOut 20 20]
      (fresh_world example_server, announcer_start example_server) =
      (Returned, (w', a')) ∧
    announced w' = ["ping"; "shutdown"].
Proof.
  destruct (announce_loop_ends_on_shutdown [TimedOut 10 10] [TimedOut 20 20]
              ["x"; "shutdown"; "y"] 12
              (fresh_world example_server) (announcer_start example_server))
    as (w' & a' & Hrun & Hsent & _).
  - repeat constructor; simpl; set_solver.
  - set_solver.
  - exists w', a'. split; [exact Hrun | exact Hsent].
Defined.

Lemma announce_timeout_is_bounded_example :
  let a :=
    (_announce_loop [TimedOut 10 10; Woken ["hello"] 12; TimedOut 20 21]
       (fresh_world example_server)).2.2 in
  (0 <= poll_timeout a)%Q ∧ (poll_timeout a <= 10 * 1000)%Q.
Proof.
  apply (announce_timeout_is_bounded
           [TimedOut 10 10; Woken ["hello"] 12; TimedOut 20 21]
           (fresh_world example_server)).
  - discriminate.
  - simpl. repeat split; discriminate.
Defined.


(** The sequential schedule has twenty steps and no failing bind. *)
Lemma startup_returns_unless_a_bind_fails_example :
  ∃ s,
    run_schedule sequential_schedule init = Some s ∧
    main s = MReturned ∧
    (∀ l, pc_of l s ≠ Crashed).
Proof.
  destruct (run_schedule sequential_schedule init) as [s|] eqn:Hrun;
    [|discriminate].
  exists s. split; [reflexivity|].
  destruct (startup_returns_unless_a_bind_fails sequential_schedule s)
    as (Hno & _ & Hreturned & _).
  - intros l Hin. unfold sequential_schedule in Hin.
    repeat (apply elem_of_cons in Hin as [Hin|Hin]; [discriminate|]).
    by apply elem_of_nil in Hin.
  - exact Hrun.
  - split; [apply Hreturned; reflexivity | exact Hno].
Defined.

(** The bind of the dispatch loop fails; [startup()] starts the other two
    threads and waits. *)
Lemma crashed_loop_blocks_startup_example :
  let s :=
    mkState MStartReceive Crashed NotStarted NotStarted [StartupCtl] [] [] [] in
  let s' :=
    mkState MRecv1 Crashed BindPublic BindPublic [StartupCtl] [] [] [] in
  run_schedule [RunMain; RunMain; BindFails Dispatch] init = Some s ∧
  run_schedule [RunMain; RunMain] s = Some s' ∧
  receives_done (main s') ≤ 2 ∧
  main s' ≠ MReturned ∧
  pc_of Dispatch s' = Crashed.
Proof.
  intros s s'.
  assert (run_schedule [RunMain; RunMain; BindFails Dispatch] init = Some s)
    as Hs by reflexivity.
  assert (run_schedule [RunMain; RunMain] s = Some s') as Hs' by reflexivity.
  split; [exact Hs|]. split; [exact Hs'|].
  apply (crashed_loop_blocks_startup s s' Dispatch).
  - exact (StartupFacts.run_schedule_steps _ _ _ Hs).
  - reflexivity.
  - exact (StartupFacts.run_schedule_steps _ _ _ Hs').
Defined.

(** Two tasks are submitted; their results come back in the other order,
    the first of them from another instance. *)
Lemma results_resolve_their_own_futures_example :
  let w :=
    (submit (PyUUID 101) (PyFunc "div") (PyTuple [PyInt 6; PyInt 3]) (PyDict ∅)
       one_pending).2 in
  ∃ w',
    receive_passes
      (Streams.result_message <$>
         [(PyUUID 9, PyUUID 101, PyInt 2); (PyUUID 1, PyUUID 100, PyInt 5)])
      w = (Running, w') ∧
    heap w' !! 0 = _set_result (PyInt 5) <$> heap w !! 0 ∧
    heap w' !! 1 = _set_result (PyInt 2) <$> heap w !! 1.
Proof.
  intros w.
  destruct (results_resolve_their_own_futures
              [(PyUUID 9, PyUUID 101, PyInt 2); (PyUUID 1, PyUUID 100, PyInt 5)]
              w)
    as (w' & Hrun & Hfulfil & _).
  - apply ReceiveFacts.registry_ok_submit, ReceiveFacts.registry_ok_submit.
    by apply ReceiveFacts.registry_ok_fresh.
  - apply NoDup_cons. split; [set_solver|]. apply NoDup_singleton.
  - apply Forall_cons_2; [by eexists|].
    apply Forall_cons_2; [by eexists|]. apply Forall_nil_2.
  - exists w'. split; [exact Hrun|]. split.
    + apply (Hfulfil (PyUUID 1) (PyUUID 100) (PyInt 5) 0); [set_solver|].
      reflexivity.
    + apply (Hfulfil (PyUUID 9) (PyUUID 101) (PyInt 2) 1); [set_solver|].
      reflexivity.
Defined.

(** A submission, a dispatch pass, a result and a shutdown. *)
Lemma registry_names_its_futures_example :
  registry_ok
    (foldl Streams.perform (fresh_world example_server)
       [Streams.CallSubmit (PyUUID 100) (PyFunc "add")
          (PyTuple [PyInt 2; PyInt 3]) (PyDict ∅);
        Streams.DispatchPass None;
        Streams.ReceivePass None
          (Some (PyTuple [PyUUID 1; PyUUID 100; PyStr "result"; PyInt 5]));
        Streams.CallShutdown]).
Proof.
  apply (registry_names_its_futures example_server).
  reflexivity.
Defined.

End further_examples.
